(** * Hurdle Wordle: scorer, game engine and reward functions

    A shallow embedding of [hurdle_wordle.py] and the properties its
    specification states about it.

    Conventions of the embedding.
    - A Python [str] is a [string] of the Standard Library; the model
      covers ASCII text, on which [str.lower], [str.upper], [\w], [\s] and
      [\d] act as defined below.
    - A Python [int] is a [Z]; [len] and [range] produce [nat].
    - A Python [float] reward is the rational it denotes ([Q]); rounding
      of binary floating point is not modelled.
    - A Python exception ([IndexError]) is [None] in the [option] monad. *)

From Stdlib Require Import ZArith QArith Ascii String Lia Permutation.
From Stdlib Require Import DecimalString Qabs.
From Stdlib Require DecimalZ.
From stdpp Require Import gmultiset.
From stdpp Require Import base option list strings gmap.

Open Scope Z_scope.

(** ** Characters and strings *)

Definition newline : ascii := ascii_of_nat 10.

Definition in_range (lo hi : N) (c : ascii) : bool :=
  ((lo <=? N_of_ascii c) && (N_of_ascii c <=? hi))%N.

Definition is_upper (c : ascii) : bool := in_range 65 90 c.
Definition is_lower (c : ascii) : bool := in_range 97 122 c.
Definition is_digit (c : ascii) : bool := in_range 48 57 c.

(** [\w] on ASCII text: letters, digits and the underscore. *)
Definition is_word (c : ascii) : bool :=
  is_upper c || is_lower c || is_digit c || Ascii.eqb c "_".

(** [\s] and [str.strip] on ASCII text. *)
Definition is_space (c : ascii) : bool :=
  in_range 9 13 c || in_range 28 32 c.

Definition lower_char (c : ascii) : ascii :=
  if is_upper c then ascii_of_N (N_of_ascii c + 32) else c.

Definition upper_char (c : ascii) : ascii :=
  if is_lower c then ascii_of_N (N_of_ascii c - 32) else c.

Fixpoint map_string (f : ascii → ascii) (s : string) : string :=
  match s with
  | EmptyString => EmptyString
  | String c s' => String (f c) (map_string f s')
  end.

(** [s.lower()] and [s.upper()]. *)
Definition lower (s : string) : string := map_string lower_char s.
Definition upper (s : string) : string := map_string upper_char s.

(** The characters of a string, as the sequence Python indexes. *)
Definition chars (s : string) : list ascii := list_ascii_of_string s.

(** [len(s)]. *)
Definition len (s : string) : nat := String.length s.

(** ** Python lists and loops *)

(** [range(n)]. *)
Definition range (n : nat) : list nat := seq 0 n.

(** [l[i]]: an index out of range raises [IndexError]. *)
Definition getitem {A} (l : list A) (i : nat) : option A := l !! i.

(** [l[i] = x]: an index out of range raises [IndexError]. *)
Definition setitem {A} (l : list A) (i : nat) (x : A) : option (list A) :=
  if decide (i < length l)%nat then Some (<[i:=x]> l) else None.

(** [s[i]] on a string. *)
Definition char_at (s : string) (i : nat) : option ascii := String.get i s.

(** [for i in idx: body], threading the loop state. *)
Fixpoint for_each {S} (body : nat → S → option S) (idx : list nat) (st : S)
  : option S :=
  match idx with
  | [] => Some st
  | i :: idx' =>
      match body i st with
      | Some st' => for_each body idx' st'
      | None => None
      end
  end.

(** The two ways an iteration of a loop with [break] ends. *)
Inductive flow (S : Type) : Type :=
| Next (st : S)
| Break (st : S).
Arguments Next {S} st.
Arguments Break {S} st.

Fixpoint for_each_break {S} (body : nat → S → option (flow S))
  (idx : list nat) (st : S) : option S :=
  match idx with
  | [] => Some st
  | i :: idx' =>
      match body i st with
      | Some (Next st') => for_each_break body idx' st'
      | Some (Break st') => Some st'
      | None => None
      end
  end.

(** ** The scorer: [calculate_hurdle_feedback] *)

(** Body of the first loop (greens). *)
Definition green_body (guess secret : string) (i : nat)
  (st : Z * list bool * list bool) : option (Z * list bool * list bool) :=
  let '(greens, secret_used, guess_used) := st in
  gi ← char_at guess i;
  si ← char_at secret i;
  if Ascii.eqb gi si then
    secret_used ← setitem secret_used i true;
    guess_used ← setitem guess_used i true;
    Some (greens + 1, secret_used, guess_used)
  else Some (greens, secret_used, guess_used).

(** Body of the inner loop of the second pass: [and] reads [secret[j]]
    only when position [j] is not used. *)
Definition scan_body (secret : string) (letter : ascii) (j : nat)
  (st : Z * list bool) : option (flow (Z * list bool)) :=
  let '(yellows, secret_used) := st in
  used ← getitem secret_used j;
  if negb used then
    sj ← char_at secret j;
    if Ascii.eqb sj letter then
      secret_used ← setitem secret_used j true;
      Some (Break (yellows + 1, secret_used))
    else Some (Next (yellows, secret_used))
  else Some (Next (yellows, secret_used)).

(** Body of the second loop (yellows). *)
Definition yellow_body (guess secret : string) (guess_used : list bool)
  (i : nat) (st : Z * list bool) : option (Z * list bool) :=
  used ← getitem guess_used i;
  if negb used then
    letter ← char_at guess i;
    for_each_break (scan_body secret letter) (range (len secret)) st
  else Some st.

Definition calculate_hurdle_feedback (guess secret : string) : option (Z * Z) :=
  let greens := 0 in
  let yellows := 0 in
  let guess := lower guess in
  let secret := lower secret in
  let secret_used := replicate (len secret) false in
  let guess_used := replicate (len guess) false in
  '(greens, secret_used, guess_used) ←
    for_each (green_body guess secret)
      (range (min (len guess) (len secret)))
      (greens, secret_used, guess_used);
  '(yellows, secret_used) ←
    for_each (yellow_body guess secret guess_used)
      (range (len guess)) (yellows, secret_used);
  Some (greens, yellows).

(** *** The passes of the scorer as recursive functions

    The loops above walk index ranges over mutable flag lists.  The same
    passes, written by recursion on the letters and their flags, are what
    the proofs reason about; [calculate_hurdle_feedback_pure] below shows
    that the code computes them. *)

(** Flags left by the green pass on the positions of [a] when read against
    [b]: a position is flagged when [b] has the same letter there. *)
Fixpoint green_marks (a b : list ascii) : list bool :=
  match a, b with
  | [], _ => []
  | _ :: a', [] => false :: green_marks a' []
  | x :: a', y :: b' => Ascii.eqb x y :: green_marks a' b'
  end.

(** Number of flagged positions. *)
Fixpoint marked (m : list bool) : Z :=
  match m with
  | [] => 0
  | b :: m' => (if b then 1 else 0) + marked m'
  end.

(** One run of the inner loop: flag the first unflagged position of the
    secret that holds [letter], if there is one. *)
Fixpoint claim (letter : ascii) (s : list ascii) (u : list bool)
  : option (list bool) :=
  match s, u with
  | x :: s', b :: u' =>
      if negb b && Ascii.eqb x letter then Some (true :: u')
      else cons b <$> claim letter s' u'
  | _, _ => None
  end.

(** The second loop over the guess letters [g] with their flags [gu]. *)
Fixpoint yellow_pass (g : list ascii) (gu : list bool)
  (s : list ascii) (su : list bool) : Z * list bool :=
  match g, gu with
  | x :: g', b :: gu' =>
      if b then yellow_pass g' gu' s su
      else match claim x s su with
           | Some su' =>
               let '(n, r) := yellow_pass g' gu' s su' in (1 + n, r)
           | None => yellow_pass g' gu' s su
           end
  | _, _ => (0, su)
  end.

Definition feedback_pure (g s : list ascii) : Z * Z :=
  (marked (green_marks g s),
   fst (yellow_pass g (green_marks g s) s (green_marks s g))).

(** Letters at the unflagged positions, in order. *)
Fixpoint pool (s : list ascii) (u : list bool) : list ascii :=
  match s, u with
  | x :: s', b :: u' => if b then pool s' u' else x :: pool s' u'
  | _, _ => []
  end.

(** Number of unflagged positions. *)
Fixpoint unmarked (m : list bool) : Z :=
  match m with
  | [] => 0
  | b :: m' => (if b then 0 else 1) + unmarked m'
  end.

(** Letters at the positions where the two words agree. *)
Fixpoint agreed (a b : list ascii) : list ascii :=
  match a, b with
  | x :: a', y :: b' =>
      if Ascii.eqb x y then x :: agreed a' b' else agreed a' b'
  | _, _ => []
  end.

(** ** Text operations used by the engine and the reward functions *)

Definition nl : string := String newline EmptyString.

(** [str(n)] for an integer. *)
Definition str_of_Z (n : Z) : string := NilEmpty.string_of_int (Z.to_int n).

(** [s[n:]]. *)
Fixpoint drop_string (n : nat) (s : string) : string :=
  match n, s with
  | S n', String _ s' => drop_string n' s'
  | _, _ => s
  end.

(** The longest prefix of [s] whose characters satisfy [p], and the rest. *)
Fixpoint span (p : ascii → bool) (s : string) : string * string :=
  match s with
  | String c s' =>
      if p c then let '(w, r) := span p s' in (String c w, r)
      else (EmptyString, s)
  | EmptyString => (EmptyString, EmptyString)
  end.

(** [sub in s]. *)
Fixpoint contains (sub s : string) : bool :=
  if String.prefix sub s then true
  else match s with
       | String _ s' => contains sub s'
       | EmptyString => false
       end.

(** [s.lstrip()], [s.rstrip()] and [s.strip()]. *)
Fixpoint lstrip (s : string) : string :=
  match s with
  | String c s' => if is_space c then lstrip s' else s
  | EmptyString => EmptyString
  end.

Fixpoint rstrip (s : string) : string :=
  match s with
  | String c s' =>
      match rstrip s' with
      | EmptyString => if is_space c then EmptyString else String c EmptyString
      | r => String c r
      end
  | EmptyString => EmptyString
  end.

Definition strip (s : string) : string := rstrip (lstrip s).

(** [s.split(sep)[-1]] for a non-empty [sep]: the text after the last
    separator that the left-to-right, non-overlapping scan of [split]
    finds, the whole of [s] when it finds none.  [skip] counts the
    characters of a separator just found that are still to be passed, and
    [acc] is the last piece so far. *)
Fixpoint split_last_from (sep s : string) (skip : nat) (acc : string) : string :=
  match s with
  | EmptyString => acc
  | String _ s' =>
      match skip with
      | S k => split_last_from sep s' k acc
      | O =>
          if String.prefix sep s
          then split_last_from sep s' (len sep - 1) (drop_string (len sep) s)
          else split_last_from sep s' 0 acc
      end
  end.

Definition split_last (sep s : string) : string := split_last_from sep s 0 s.

(** [int(d)] for a string of decimal digits. *)
Definition digit_value (c : ascii) : Z := Z.of_N (N_of_ascii c) - 48.

Fixpoint int_of_digits_from (acc : Z) (d : string) : Z :=
  match d with
  | String c d' => int_of_digits_from (10 * acc + digit_value c) d'
  | EmptyString => acc
  end.

Definition int_of_digits (d : string) : Z := int_of_digits_from 0 d.

(** A match of [\[(\w+)\]] at the start of [s]: its group 1.  The greedy
    [\w+] takes the longest run of word characters; no shorter run can be
    followed by the closing bracket, which is not a word character. *)
Definition match_bracket (s : string) : option string :=
  match s with
  | String "[" rest =>
      match span is_word rest with
      | (String c w, String "]" _) => Some (String c w)
      | _ => None
      end
  | _ => None
  end.

(** [re.search(r"\[(\w+)\]", s)]: group 1 of the leftmost match. *)
Fixpoint re_search_bracket (s : string) : option string :=
  match match_bracket s with
  | Some w => Some w
  | None =>
      match s with
      | String _ s' => re_search_bracket s'
      | EmptyString => None
      end
  end.

(** A match of [key\s*(\d+)] at the start of [s]: the value of group 1. *)
Definition match_count (key s : string) : option Z :=
  if String.prefix key s then
    match span is_digit (snd (span is_space (drop_string (len key) s))) with
    | (String c d, _) => Some (int_of_digits (String c d))
    | _ => None
    end
  else None.

(** [re.search(key + r"\s*(\d+)", s)] followed by [int(m.group(1))]. *)
Fixpoint re_search_count (key s : string) : option Z :=
  match match_count key s with
  | Some n => Some n
  | None =>
      match s with
      | String _ s' => re_search_count key s'
      | EmptyString => None
      end
  end.

(** ** The game engine: [HurdleWordleEnv] *)

(** [state.game_state], the dictionary of the episode. *)
Record GameState := {
  secret_word : string;
  word_length : Z;
  num_guesses : Z;
  guess_history : list (string * (Z * Z))
}.

Inductive ObservationType := PLAYER_ACTION | GAME_MESSAGE.

(** Modelled from the spec: the state object of the host framework
    ([self.state], an instance of a class of the textarena package) is not
    part of this repository.  It holds the episode state of the
    specification: the game state, the [error_allowance] counter, the
    terminal flag with its reward, and the log of observations. *)
Record State := {
  game_state : GameState;
  error_allowance : Z;
  done : bool;
  rewards : option Q;
  observations : list (ObservationType * string)
}.

(** [info], the dictionary a turn returns. *)
Record Info := {
  reason : option string;
  reward : option Q;
  latest_observation : option string
}.

Definition empty_info : Info :=
  {| reason := None; reward := None; latest_observation := None |}.

(** [info["reason"] = r], [info["reward"] = r] and
    [info["latest_observation"] = {"content": m}]. *)
Definition set_reason (r : string) (i : Info) : Info :=
  {| reason := Some r; reward := reward i;
     latest_observation := latest_observation i |}.
Definition set_reward (r : Q) (i : Info) : Info :=
  {| reason := reason i; reward := Some r;
     latest_observation := latest_observation i |}.
Definition set_latest_observation (m : string) (i : Info) : Info :=
  {| reason := reason i; reward := reward i; latest_observation := Some m |}.

(** Modelled from the spec: [state.add_observation] of the framework
    appends a message to the log of the episode. *)
Definition add_observation (message : string) (ty : ObservationType)
  (st : State) : State :=
  {| game_state := game_state st; error_allowance := error_allowance st;
     done := done st; rewards := rewards st;
     observations := observations st ++ [(ty, message)] |}.

(** Modelled from the spec: [state.set_invalid_move] of the framework.  "A
    malformed submission does not change state but consumes one unit of
    error_allowance"; the allowance is a soft budget and the episode is not
    ended by it. *)
Definition set_invalid_move (reward : Q) (reason : string) (st : State)
  : State :=
  {| game_state := game_state st; error_allowance := error_allowance st - 1;
     done := done st; rewards := rewards st;
     observations := observations st |}.

(** Modelled from the spec: [state.set_outcome] of the framework sets the
    terminal outcome with its reward. *)
Definition set_outcome (reward : Q) (reason : string) (st : State) : State :=
  {| game_state := game_state st; error_allowance := error_allowance st;
     done := true; rewards := Some reward;
     observations := observations st |}.

(** Modelled from the spec: [state.step] of the framework closes the turn
    and returns the terminal flag with a fresh [info]. *)
Definition state_step (st : State) : bool * Info * State :=
  (done st, empty_info, st).

(** Modelled from the spec: [_get_percentage_completion] of the parent
    class [WordleEnv], "fraction of max_guesses already used, or 0 if
    none". *)
Definition _get_percentage_completion (st : State) : Q :=
  match guess_history (game_state st) with
  | [] => 0
  | _ :: _ =>
      (inject_Z (Z.of_nat (length (guess_history (game_state st))))
       / inject_Z (num_guesses (game_state st)))%Q
  end.

(** The terminal outcome of the specification: [Won] is the outcome set
    with reward 1.0, [Lost] the one set with reward 0.0. *)
Inductive Outcome := Won | Lost.

Definition outcome (st : State) : option Outcome :=
  if done st then
    match rewards st with
    | Some r => if Qeq_bool r 1 then Some Won else Some Lost
    | None => None
    end
  else None.

(** Modelled from the spec: [reset] of the parent class, which draws the
    secret word; here the secret and the two sizes are arguments. "Engine
    samples/receives a SecretWord of length L and initializes EpisodeState
    with empty GuessHistory".  The allowance it starts with is overwritten
    by [reset] below. *)
Definition WordleEnv_reset (secret : string) (word_length num_guesses : Z)
  : State :=
  {| game_state := {| secret_word := secret; word_length := word_length;
                      num_guesses := num_guesses; guess_history := [] |};
     error_allowance := 0; done := false; rewards := None;
     observations := [] |}.

(** [self.state.error_allowance = n]. *)
Definition set_error_allowance (n : Z) (st : State) : State :=
  {| game_state := game_state st; error_allowance := n;
     done := done st; rewards := rewards st;
     observations := observations st |}.

(** [HurdleWordleEnv.reset]. *)
Definition reset (secret : string) (word_length num_guesses : Z) : State :=
  set_error_allowance 10 (WordleEnv_reset secret word_length num_guesses).

(** [state.game_state["guess_history"].append(r)]. *)
Definition append_history (r : string * (Z * Z)) (st : State) : State :=
  {| game_state :=
       {| secret_word := secret_word (game_state st);
          word_length := word_length (game_state st);
          num_guesses := num_guesses (game_state st);
          guess_history := guess_history (game_state st) ++ [r] |};
     error_allowance := error_allowance st; done := done st;
     rewards := rewards st; observations := observations st |}.

(** The texts of [step]. *)
Definition wrong_format_reason : string :=
  "You tried submitting a word in the wrong format. Please make sure to use squared brackets.".

Definition length_reason (word_length : Z) : string :=
  "Your word must be exactly " +:+ str_of_Z word_length +:+ " letters.".

Definition win_reason : string :=
  "Congratulations! You guessed the word correctly!".

Definition lose_reason (secret_word : string) : string :=
  "Game over! The word was '" +:+ upper secret_word +:+ "'.".

Definition feedback_text (word : string) (greens yellows : Z) : string :=
  "You submitted [" +:+ upper word +:+ "]." +:+ nl +:+
  "Feedback: greens: " +:+ str_of_Z greens +:+
  ", yellows: " +:+ str_of_Z yellows.

(** [self.state.rewards.get(0, 0.0) if self.state.rewards else 0.0]. *)
Definition current_reward (st : State) : Q :=
  match rewards st with
  | Some r => r
  | None => 0
  end.

(** [HurdleWordleEnv.step]: the turn result is [(is_done, info)], and the
    state after the turn is returned with it. *)
Definition step (action : string) (st : State) : option (bool * Info * State) :=
  let st := add_observation action PLAYER_ACTION st in
  match re_search_bracket action with
  | None =>
      let st :=
        set_invalid_move (_get_percentage_completion st)
          wrong_format_reason st in
      let '(is_done, info, st) := state_step st in
      let info := set_reason wrong_format_reason info in
      let info := set_reward (current_reward st) info in
      Some (is_done, info, st)
  | Some group1 =>
      let word := lower group1 in
      if negb (Z.of_nat (len word) =? word_length (game_state st)) then
        let st :=
          set_invalid_move (_get_percentage_completion st)
            (length_reason (word_length (game_state st))) st in
        let '(is_done, info, st) := state_step st in
        let info := set_reason (length_reason (word_length (game_state st))) info in
        let info := set_reward (current_reward st) info in
        Some (is_done, info, st)
      else
        let secret_word := secret_word (game_state st) in
        '(greens, yellows) ← calculate_hurdle_feedback word secret_word;
        let st := append_history (word, (greens, yellows)) st in
        if String.eqb (lower word) (lower secret_word) then
          let feedback_msg :=
            feedback_text word greens yellows +:+ nl +:+ win_reason in
          let st := add_observation feedback_msg GAME_MESSAGE st in
          let st := set_outcome 1 win_reason st in
          let '(is_done, info, st) := state_step st in
          let info := set_reward 1 info in
          let info := set_reason win_reason info in
          Some (is_done, info, st)
        else if Z.of_nat (length (guess_history (game_state st)))
                >=? num_guesses (game_state st) then
          let feedback_msg :=
            feedback_text word greens yellows +:+ nl +:+
            lose_reason secret_word in
          let st := add_observation feedback_msg GAME_MESSAGE st in
          let st := set_outcome 0 (lose_reason secret_word) st in
          let '(is_done, info, st) := state_step st in
          let info := set_reward 0 info in
          let info := set_reason (lose_reason secret_word) info in
          Some (is_done, info, st)
        else
          let feedback_msg := feedback_text word greens yellows in
          let st := add_observation feedback_msg GAME_MESSAGE st in
          let '(is_done, info, st) := state_step st in
          let info := set_latest_observation feedback_msg info in
          let info :=
            set_reward ((2 # 10) * inject_Z greens + (1 # 10) * inject_Z yellows)%Q
              info in
          Some (is_done, info, st)
  end.

(** A run of the engine: the turns submitted one after the other. *)
Fixpoint run (actions : list string) (st : State) : option State :=
  match actions with
  | [] => Some st
  | a :: actions' =>
      match step a st with
      | Some (_, _, st') => run actions' st'
      | None => None
      end
  end.

(** ** The reward functions *)

(** A message of a transcript: [{"role": ..., "content": ...}]; the key
    ["content"] may be absent. *)
Record message := {
  role : string;
  content : option string
}.

(** The parser handed to the reward functions is an object of the
    verifiers package; the functions use two of its methods. *)
Class Parser := {
  parse_answer : list message → option string;
  get_user_messages : list message → list message
}.

(** [check_answer_reward_func]. *)
Definition check_answer_reward_func `{Parser} (completion : list message)
  (answer : string) : Q :=
  let guess := parse_answer completion in
  match guess with
  | Some g => if String.eqb g ("[" +:+ answer +:+ "]") then 1 else 0
  | None => 0
  end.

(** [x / n] with an integer divisor: [ZeroDivisionError] when it is 0. *)
Definition py_div (x : Q) (n : Z) : option Q :=
  if n =? 0 then None else Some (x / inject_Z n)%Q.

(** [m.get("content", "")]. *)
Definition content_or_empty (m : message) : string :=
  match content m with
  | Some c => c
  | None => EmptyString
  end.

Definition welcome : string := "Welcome to Hurdle Wordle!".

(** [count_turns_reward_func]. *)
Definition count_turns_reward_func `{Parser} (completion : list message)
  (answer : string) : option Q :=
  let assistant_messages :=
    filter (λ x, role x = "assistant") completion in
  let num_turns := Z.of_nat (length assistant_messages) in
  num_turns ←
    (if 0 <? num_turns then
       first ← getitem assistant_messages 0;
       Some (if contains welcome (content_or_empty first)
             then num_turns - 1 else num_turns)
     else Some num_turns);
  let is_correct := check_answer_reward_func completion answer in
  py_div is_correct (num_turns + 1).

(** [l[-1]]: [IndexError] on the empty list. *)
Definition getitem_last {A} (l : list A) : option A := last l.

(** [partial_credit_reward_func]: [None] stands for the [IndexError] of
    [[-1]] on an empty list and the [KeyError] of a missing ["content"]. *)
Definition partial_credit_reward_func `{Parser} (completion : list message)
  : option Q :=
  final ← getitem_last (get_user_messages completion);
  text ← content final;
  let final_env_response := strip text in
  if contains "Feedback:" final_env_response then
    let feedback_line := strip (split_last "Feedback:" final_env_response) in
    let green_match := re_search_count "greens:" feedback_line in
    let yellow_match := re_search_count "yellows:" feedback_line in
    match green_match, yellow_match with
    | Some num_greens, Some num_yellows =>
        Some ((2 # 10) * inject_Z num_greens
              + (1 # 10) * inject_Z num_yellows)%Q
    | _, _ => Some 0%Q
    end
  else Some 0%Q.

(** The text of [s] before the first [stop], and the text after the first
    [start]. *)
Fixpoint before (stop s : string) : option string :=
  if String.prefix stop s then Some EmptyString
  else match s with
       | String c s' => String c <$> before stop s'
       | EmptyString => None
       end.

Fixpoint after (start s : string) : option string :=
  if String.prefix start s then Some (drop_string (len start) s)
  else match s with
       | String _ s' => after start s'
       | EmptyString => None
       end.

Definition between_tags (s : string) : option string :=
  rest ← after "<guess>" s;
  inner ← before "</guess>" rest;
  Some (strip inner).

(** Modelled from the spec: the answer extraction of the parser of the
    verifiers package, which is not part of this repository.  "Given a
    full transcript entry, yields the literal guess content between
    recognized tags": the answer is the text between [<guess>] and
    [</guess>] in the last assistant message that has both. *)
Fixpoint last_answer (msgs : list message) : option string :=
  match msgs with
  | [] => None
  | m :: msgs' =>
      match last_answer msgs' with
      | Some a => Some a
      | None =>
          if decide (role m = "assistant")
          then between_tags (content_or_empty m) else None
      end
  end.

(** Modelled from the spec: the parser object of the verifiers package,
    with [last_answer] for the answer and the entries whose role is [user]
    (the messages of the environment) as user messages. *)
Definition XMLParser : Parser := {|
  parse_answer := last_answer;
  get_user_messages := filter (λ x, role x = "user")
|}.

(** *** The two-pass reference algorithm of the specification

    Written from the words of the specification, for two words of the same
    length L: positions are consumed into two sets, one for the guess and
    one for the secret.

    - Green pass: for each index i in [0, L), if guess[i] == secret[i],
      count a green and mark both guess-position i and secret-position i
      as consumed.
    - Yellow pass: for each unconsumed guess position i, left to right,
      take the first unconsumed secret position j whose letter equals
      guess[i]; if there is one, count a yellow and mark secret-position j
      and guess-position i consumed. *)
Section reference.
Variables guess secret : string.

Definition ref_green_step (st : Z * gset nat * gset nat) (i : nat)
  : Z * gset nat * gset nat :=
  let '(greens, consumed_guess, consumed_secret) := st in
  if bool_decide (char_at guess i = char_at secret i)
  then (greens + 1, {[i]} ∪ consumed_guess, {[i]} ∪ consumed_secret)
  else st.

Definition ref_green_pass : Z * gset nat * gset nat :=
  foldl ref_green_step (0, ∅, ∅) (seq 0 (len guess)).

(** The lowest unconsumed secret position that holds [letter]. *)
Definition ref_lowest (consumed_secret : gset nat) (letter : ascii)
  : option nat :=
  snd <$> list_find
            (λ j, (j ∉ consumed_secret) ∧ char_at secret j = Some letter)
            (seq 0 (len secret)).

Definition ref_yellow_step (st : Z * gset nat * gset nat) (i : nat)
  : Z * gset nat * gset nat :=
  let '(yellows, consumed_guess, consumed_secret) := st in
  if bool_decide (i ∈ consumed_guess) then st
  else match char_at guess i with
       | Some letter =>
           match ref_lowest consumed_secret letter with
           | Some j =>
               (yellows + 1, {[i]} ∪ consumed_guess,
                {[j]} ∪ consumed_secret)
           | None => st
           end
       | None => st
       end.

Definition ref_yellow_pass (consumed_guess consumed_secret : gset nat)
  : Z * gset nat * gset nat :=
  foldl ref_yellow_step (0, consumed_guess, consumed_secret)
    (seq 0 (len guess)).

Definition two_pass_reference : Z * Z :=
  let '(greens, consumed_guess, consumed_secret) := ref_green_pass in
  let '(yellows, _, _) := ref_yellow_pass consumed_guess consumed_secret in
  (greens, yellows).
End reference.

(** The flag list that stands for a set of consumed positions below [n]. *)
Definition flags_of (consumed : gset nat) (n : nat) : list bool :=
  (λ j, bool_decide (j ∈ consumed)) <$> seq 0 n.

(** ** Notions used to state the properties *)

(** [sub] occurs in [s] as a substring. *)
Definition occurs_in (sub s : string) : Prop :=
  ∃ pre post, s = pre +:+ sub +:+ post.

(** Every character of [s] satisfies [p]. *)
Definition all_chars (p : ascii → bool) (s : string) : Prop :=
  Forall (λ c, p c = true) (chars s).

(** [action] contains a bracket-delimited token [[w]] of word
    characters. *)
Definition bracket_token (action w : string) : Prop :=
  w ≠ EmptyString ∧ all_chars is_word w ∧
  occurs_in ("[" +:+ w +:+ "]") action.

(** The states an episode passes through from [s0], whatever is
    submitted and whenever. *)
Inductive reachable (s0 : State) : State → Prop :=
| reachable_init : reachable s0 s0
| reachable_step st action is_done info st' :
    reachable s0 st →
    step action st = Some (is_done, info, st') →
    reachable s0 st'.

(** The states an episode passes through when nothing is submitted after
    the terminal turn. *)
Inductive played (s0 : State) : State → Prop :=
| played_init : played s0 s0
| played_step st action is_done info st' :
    played s0 st →
    done st = false →
    step action st = Some (is_done, info, st') →
    played s0 st'.

(** [0.2 * greens + 0.1 * yellows]. *)
Definition partial_credit (greens yellows : Z) : Q :=
  ((2 # 10) * inject_Z greens + (1 # 10) * inject_Z yellows)%Q.

(** The assistant turns of a transcript without a leading welcome turn. *)
Definition guessing_turns (completion : list message) : list message :=
  match filter (λ x, role x = "assistant") completion with
  | first :: rest =>
      if contains welcome (content_or_empty first) then rest
      else first :: rest
  | [] => []
  end.

(** The state an episode is in after the turns [actions], for the
    examples. *)
Definition state_after (actions : list string) (st : State) : State :=
  match run actions st with
  | Some st' => st'
  | None => st
  end.

(** The word of a parsed answer of the form [[word]]. *)
Fixpoint without_closing_bracket (s : string) : option string :=
  match s with
  | EmptyString => None
  | String c EmptyString => if Ascii.eqb c "]" then Some EmptyString else None
  | String c s' => String c <$> without_closing_bracket s'
  end.

Definition unbracket (s : string) : option string :=
  match s with
  | String "[" rest => without_closing_bracket rest
  | _ => None
  end.

(** The final submitted guess of a transcript: the word in the brackets of
    the answer the parser extracts. *)
Definition final_guess `{Parser} (completion : list message) : option string :=
  parse_answer completion ≫= unbracket.

(** The transcript of the repository's test of the correctness reward: one
    assistant turn and no message of the environment. *)
Definition one_turn_transcript : list message :=
  [{| role := "assistant"; content := Some "<guess>[plant]</guess>" |}].

(** The transcripts of the repository's tests of the reward functions. *)
Definition says (r c : string) : message := {| role := r; content := Some c |}.

Definition win_transcript : list message :=
  [says "assistant" "Welcome to Hurdle Wordle! You need to guess...";
   says "assistant" "<guess>[crane]</guess>";
   says "user" "Feedback: greens: 0, yellows: 1";
   says "assistant" "<guess>[plant]</guess>";
   says "user" "Congratulations! You guessed the word correctly!"].

Definition feedback_transcript : list message :=
  [says "assistant" "You are playing Hurdle Wordle...";
   says "assistant" "<guess>[crane]</guess>";
   says "user" ("You submitted [CRANE]." +:+ nl +:+
                "Feedback: greens: 1, yellows: 2")].

Definition no_feedback_transcript : list message :=
  [says "assistant" "<guess>[invalidword]</guess>";
   says "user" "'invalidword' is not a valid word."].

(** The letters of a word as a multiset, case ignored. *)
Definition letters (s : string) : gmultiset ascii :=
  list_to_set_disj (chars (lower s)).

(** ** The feedback function and the prompt *)

(** [hurdle_wordle_feedback_fn]. *)
Definition hurdle_wordle_feedback_fn (observation : string) : string :=
  if contains "Feedback:" observation
  then split_last "Feedback:" observation
  else observation.

(** [HurdleWordleEnv._generate_player_prompt]. *)
Definition _generate_player_prompt (game_state : GameState) : string :=
  "Welcome to Hurdle Wordle!" +:+ nl +:+ nl +:+
  "You need to guess a secret " +:+ str_of_Z (word_length game_state) +:+
  "-letter word." +:+ nl +:+
  "You have " +:+ str_of_Z (num_guesses game_state) +:+ " attempts." +:+
  nl +:+ nl +:+
  "Unlike regular Wordle, you only get counts of correct letters:" +:+ nl +:+
  "- greens: letters in the correct position" +:+ nl +:+
  "- yellows: correct letters in wrong positions" +:+ nl +:+ nl +:+
  "Submit your guess in the format: [WORD]" +:+ nl +:+ nl +:+
  "Good luck!".

(** No letter F is followed by a letter e in [s]: the marker "Feedback:"
    cannot start anywhere in such a text. *)
Fixpoint fe_free (s : string) : bool :=
  match s with
  | String a (String b _ as s') =>
      negb (Ascii.eqb a "F" && Ascii.eqb b "e") && fe_free s'
  | _ => true
  end.

(** [s] does not start with the letter e. *)
Definition head_not_e (s : string) : Prop :=
  match s with
  | String c _ => c ≠ "e"%char
  | EmptyString => True
  end.

(** A transcript that ends with a message of the environment. *)
Definition ends_with_user (text : string) : list message :=
  [{| role := "assistant"; content := Some "<guess>[crane]</guess>" |};
   {| role := "user"; content := Some text |}].

(** The character tests used to tell the pieces of a message apart. *)
Definition not_e (c : ascii) : bool := negb (Ascii.eqb c "e").
Definition not_y (c : ascii) : bool := negb (Ascii.eqb c "y").
Definition not_space (c : ascii) : bool := negb (is_space c).

(** What may follow the counts in a message of the engine: nothing, or a
    new line and a closing text without the marker that does not end in
    white space. *)
Definition closes (tail : string) : Prop :=
  tail = EmptyString ∨
  ∃ rest, tail = nl +:+ rest ∧ fe_free rest = true ∧
          rstrip rest = rest ∧ rest ≠ EmptyString.

(* ================================================================= *)
(** * Properties *)

(** ** Strings as character sequences *)

Lemma char_at_chars s i : char_at s i = chars s !! i.
Proof.
  revert i. induction s as [|c s IH]; intros [|i]; simpl; try reflexivity.
  apply IH.
Qed.

Lemma len_chars s : len s = length (chars s).
Proof. induction s as [|c s IH]; simpl; [reflexivity|]. f_equal. apply IH. Qed.

(** ** The loops of the scorer compute the recursive passes *)

Lemma green_marks_nil_r a : green_marks a [] = replicate (length a) false.
Proof. induction a as [|x a IH]; simpl; [reflexivity|]. by rewrite IH. Qed.

Lemma marked_replicate_false n : marked (replicate n false) = 0.
Proof. induction n as [|n IH]; simpl; auto. Qed.

Lemma length_green_marks a b : length (green_marks a b) = length a.
Proof.
  revert b. induction a as [|x a IH]; intros [|y b]; simpl; auto.
Qed.

Lemma setitem_middle {A} (l1 l2 : list A) (x y : A) k :
  k = length l1 → setitem (l1 ++ x :: l2) k y = Some (l1 ++ y :: l2).
Proof.
  intros ->. unfold setitem. rewrite decide_True.
  - f_equal. rewrite <- (Nat.add_0_r (length l1)) at 1.
    by rewrite insert_app_r.
  - rewrite length_app. simpl. lia.
Qed.

Lemma green_loop guess secret g2 : ∀ s2 g1 s1 gu1 su1 n,
  chars guess = g1 ++ g2 → chars secret = s1 ++ s2 →
  length s1 = length g1 → length gu1 = length g1 → length su1 = length g1 →
  for_each (green_body guess secret)
    (seq (length g1) (min (length g2) (length s2)))
    (n, su1 ++ replicate (length s2) false, gu1 ++ replicate (length g2) false)
  = Some (n + marked (green_marks g2 s2),
          su1 ++ green_marks s2 g2, gu1 ++ green_marks g2 s2).
Proof.
  induction g2 as [|x g2 IH]; intros s2 g1 s1 gu1 su1 n Hg Hs Hl1 Hl2 Hl3.
  - simpl. rewrite green_marks_nil_r, Z.add_0_r. reflexivity.
  - destruct s2 as [|y s2].
    + rewrite green_marks_nil_r, marked_replicate_false, Z.add_0_r.
      reflexivity.
    + cbn [length min Nat.min seq for_each green_body].
      rewrite !char_at_chars, Hg, Hs.
      rewrite (list_lookup_middle g1 g2 x) by reflexivity.
      rewrite (list_lookup_middle s1 s2 y) by congruence.
      cbn [mbind option_bind replicate].
      specialize (IH s2 (g1 ++ [x]) (s1 ++ [y])).
      replace (S (length g1)) with (length (g1 ++ [x]))
        by (rewrite length_app; simpl; lia).
      cbn [green_marks marked]. rewrite (Ascii.eqb_sym y x).
      destruct (Ascii.eqb x y).
      * rewrite (setitem_middle su1 _ false true) by congruence.
        rewrite (setitem_middle gu1 _ false true) by congruence.
        cbn [mbind option_bind].
        rewrite (cons_middle true su1), (cons_middle true gu1), !app_assoc.
        rewrite (IH (gu1 ++ [true]) (su1 ++ [true]) (n + 1)).
        -- rewrite <- !app_assoc, Z.add_assoc. reflexivity.
        -- by rewrite <- app_assoc.
        -- by rewrite <- app_assoc.
        -- rewrite !length_app. simpl. lia.
        -- rewrite !length_app. simpl. lia.
        -- rewrite !length_app. simpl. lia.
      * rewrite (cons_middle false su1), (cons_middle false gu1), !app_assoc.
        rewrite (IH (gu1 ++ [false]) (su1 ++ [false]) n).
        -- rewrite <- !app_assoc, Z.add_0_l. reflexivity.
        -- by rewrite <- app_assoc.
        -- by rewrite <- app_assoc.
        -- rewrite !length_app. simpl. lia.
        -- rewrite !length_app. simpl. lia.
        -- rewrite !length_app. simpl. lia.
Qed.

Lemma length_claim letter s : ∀ u u',
  claim letter s u = Some u' → length u' = length u.
Proof.
  induction s as [|x s IH]; intros [|b u] u' H; simpl in H; try discriminate.
  destruct (negb b && Ascii.eqb x letter).
  - injection H as <-. reflexivity.
  - destruct (claim letter s u) as [u0|] eqn:E; simpl in H; [|discriminate].
    injection H as <-. simpl. f_equal. eauto.
Qed.

Lemma scan_loop secret letter s2 : ∀ s1 u1 u2 y,
  chars secret = s1 ++ s2 →
  length u1 = length s1 → length u2 = length s2 →
  for_each_break (scan_body secret letter)
    (seq (length s1) (length s2)) (y, u1 ++ u2)
  = Some (match claim letter s2 u2 with
          | Some u2' => (y + 1, u1 ++ u2')
          | None => (y, u1 ++ u2)
          end).
Proof.
  induction s2 as [|x s2 IH]; intros s1 u1 u2 y Hs Hl1 Hl2.
  - destruct u2; [reflexivity | discriminate].
  - destruct u2 as [|b u2]; [discriminate|]. injection Hl2 as Hl2.
    cbn [length seq for_each_break scan_body]. unfold getitem.
    rewrite (list_lookup_middle u1 u2 b) by congruence.
    cbn [mbind option_bind claim].
    specialize (IH (s1 ++ [x]) (u1 ++ [b]) u2 y).
    replace (S (length s1)) with (length (s1 ++ [x]))
      by (rewrite length_app; simpl; lia).
    destruct b; cbn [negb andb].
    + rewrite (cons_middle true u1), app_assoc, IH.
      * destruct (claim letter s2 u2); simpl; by rewrite <- app_assoc.
      * by rewrite <- app_assoc.
      * rewrite !length_app. simpl. lia.
      * exact Hl2.
    + rewrite char_at_chars, Hs.
      rewrite (list_lookup_middle s1 s2 x) by reflexivity.
      cbn [mbind option_bind].
      destruct (Ascii.eqb x letter).
      * rewrite (setitem_middle u1 _ false true) by congruence.
        reflexivity.
      * rewrite (cons_middle false u1), app_assoc, IH.
        -- destruct (claim letter s2 u2); simpl; by rewrite <- app_assoc.
        -- by rewrite <- app_assoc.
        -- rewrite !length_app. simpl. lia.
        -- exact Hl2.
Qed.

Lemma yellow_loop guess secret gu g2 : ∀ g1 gu1 gu2 su y,
  chars guess = g1 ++ g2 → gu = gu1 ++ gu2 →
  length gu1 = length g1 → length gu2 = length g2 →
  length su = length (chars secret) →
  for_each (yellow_body guess secret gu) (seq (length g1) (length g2)) (y, su)
  = Some (y + fst (yellow_pass g2 gu2 (chars secret) su),
          snd (yellow_pass g2 gu2 (chars secret) su)).
Proof.
  induction g2 as [|x g2 IH]; intros g1 gu1 gu2 su y Hg Hgu Hl1 Hl2 Hsu.
  - destruct gu2; [|discriminate]. simpl. by rewrite Z.add_0_r.
  - destruct gu2 as [|b gu2]; [discriminate|]. injection Hl2 as Hl2.
    cbn [length seq for_each]. unfold yellow_body at 1, getitem.
    rewrite Hgu, (list_lookup_middle gu1 gu2 b) by congruence.
    rewrite <- Hgu. cbn [mbind option_bind yellow_pass].
    specialize (IH (g1 ++ [x]) (gu1 ++ [b]) gu2).
    replace (S (length g1)) with (length (g1 ++ [x]))
      by (rewrite length_app; simpl; lia).
    assert (Hg' : chars guess = (g1 ++ [x]) ++ g2) by by rewrite <- app_assoc.
    assert (Hgu' : gu = (gu1 ++ [b]) ++ gu2) by by rewrite <- app_assoc.
    assert (Hl' : length (gu1 ++ [b]) = length (g1 ++ [x]))
      by (rewrite !length_app; simpl; lia).
    destruct b; cbn [negb].
    + by apply IH.
    + rewrite char_at_chars, Hg.
      rewrite (list_lookup_middle g1 g2 x) by reflexivity.
      cbn [mbind option_bind]. unfold range. rewrite len_chars.
      pose proof (scan_loop secret x (chars secret) [] [] su y eq_refl
                    eq_refl Hsu) as Hscan.
      simpl in Hscan. rewrite Hscan.
      destruct (claim x (chars secret) su) as [su'|] eqn:E.
      * rewrite (IH su' (y + 1)); auto.
        -- destruct (yellow_pass g2 gu2 (chars secret) su'). simpl.
           f_equal. f_equal. lia.
        -- rewrite (length_claim _ _ _ _ E). exact Hsu.
      * by apply IH.
Qed.

(** The code raises no [IndexError] and returns the counts of the recursive
    passes, whatever the lengths of the two words. *)
Theorem calculate_hurdle_feedback_pure guess secret :
  calculate_hurdle_feedback guess secret
  = Some (feedback_pure (chars (lower guess)) (chars (lower secret))).
Proof.
  unfold calculate_hurdle_feedback, feedback_pure, range.
  set (g := lower guess). set (s := lower secret).
  rewrite !len_chars.
  pose proof (green_loop g s (chars g) (chars s) [] [] [] [] 0
                eq_refl eq_refl eq_refl eq_refl eq_refl) as Hgreen.
  simpl in Hgreen. rewrite Hgreen. cbn [mbind option_bind].
  pose proof (yellow_loop g s (green_marks (chars g) (chars s)) (chars g)
                [] [] (green_marks (chars g) (chars s))
                (green_marks (chars s) (chars g)) 0
                eq_refl eq_refl eq_refl) as Hyellow.
  simpl in Hyellow. rewrite Hyellow.
  - destruct (yellow_pass _ _ _ _). reflexivity.
  - apply length_green_marks.
  - apply length_green_marks.
Qed.

(** ** Counting bounds of the passes *)

Lemma marked_nonneg m : 0 ≤ marked m.
Proof. induction m as [|[] m IH]; simpl; lia. Qed.

Lemma unmarked_nonneg m : 0 ≤ unmarked m.
Proof. induction m as [|[] m IH]; simpl; lia. Qed.

Lemma marked_unmarked m : marked m + unmarked m = Z.of_nat (length m).
Proof. induction m as [|[] m IH]; simpl length; simpl marked; simpl unmarked; lia. Qed.

Lemma marked_green_marks_comm a : ∀ b,
  marked (green_marks a b) = marked (green_marks b a).
Proof.
  induction a as [|x a IH]; intros [|y b]; simpl; try reflexivity.
  - by rewrite green_marks_nil_r, marked_replicate_false.
  - by rewrite green_marks_nil_r, marked_replicate_false.
  - by rewrite IH, (Ascii.eqb_sym x y).
Qed.

Lemma unmarked_claim letter s : ∀ u u',
  claim letter s u = Some u' → unmarked u' = unmarked u - 1.
Proof.
  induction s as [|x s IH]; intros [|b u] u' H; simpl in H; try discriminate.
  destruct (negb b && Ascii.eqb x letter) eqn:E.
  - injection H as <-. apply andb_true_iff in E as [E _].
    destruct b; [discriminate|]. simpl. lia.
  - destruct (claim letter s u) as [u0|] eqn:E'; simpl in H; [|discriminate].
    injection H as <-. simpl. rewrite (IH _ _ E'). lia.
Qed.

Lemma yellow_pass_nonneg g : ∀ gu s su, 0 ≤ (yellow_pass g gu s su).1.
Proof.
  induction g as [|x g IH]; intros [|b gu] s su; simpl; try lia.
  destruct b; [apply IH|].
  destruct (claim x s su) as [su'|]; [|apply IH].
  specialize (IH gu s su'). destruct (yellow_pass g gu s su'). simpl in *. lia.
Qed.

(** Every yellow comes from an unflagged guess position. *)
Lemma yellow_pass_le_guess g : ∀ gu s su,
  (yellow_pass g gu s su).1 ≤ unmarked gu.
Proof.
  induction g as [|x g IH]; intros gu s su;
    [destruct gu; apply unmarked_nonneg|].
  destruct gu as [|b gu]; [apply unmarked_nonneg|].
  cbn [yellow_pass unmarked]. destruct b.
  - specialize (IH gu s su). lia.
  - destruct (claim x s su) as [su'|].
    + specialize (IH gu s su'). destruct (yellow_pass g gu s su').
      simpl in *. lia.
    + specialize (IH gu s su). lia.
Qed.

(** Every yellow flags one more secret position. *)
Lemma yellow_pass_le_secret g : ∀ gu s su,
  (yellow_pass g gu s su).1 ≤ unmarked su.
Proof.
  induction g as [|x g IH]; intros gu s su;
    [destruct gu; apply unmarked_nonneg|].
  destruct gu as [|b gu]; [apply unmarked_nonneg|].
  cbn [yellow_pass]. destruct b; [apply IH|].
  destruct (claim x s su) as [su'|] eqn:E; [|apply IH].
  specialize (IH gu s su'). rewrite (unmarked_claim _ _ _ _ E) in IH.
  destruct (yellow_pass g gu s su'). simpl in *. lia.
Qed.

Lemma feedback_pure_bounds g s :
  0 ≤ (feedback_pure g s).1 ∧ 0 ≤ (feedback_pure g s).2 ∧
  (feedback_pure g s).1 + (feedback_pure g s).2
    ≤ Z.of_nat (min (length g) (length s)).
Proof.
  unfold feedback_pure. cbn [fst snd].
  split; [apply marked_nonneg|]. split; [apply yellow_pass_nonneg|].
  pose proof (yellow_pass_le_guess g (green_marks g s) s (green_marks s g)).
  pose proof (yellow_pass_le_secret g (green_marks g s) s (green_marks s g)).
  pose proof (marked_unmarked (green_marks g s)).
  pose proof (marked_unmarked (green_marks s g)).
  pose proof (marked_green_marks_comm g s).
  rewrite length_green_marks in *. lia.
Qed.

(** ** Anagrams use every letter *)

Lemma pool_agreed a : ∀ b, length a = length b →
  a ≡ₚ pool a (green_marks a b) ++ agreed a b ∧
  b ≡ₚ pool b (green_marks b a) ++ agreed a b.
Proof.
  induction a as [|x a IH]; intros [|y b] Hl; try discriminate.
  - split; reflexivity.
  - injection Hl as Hl. destruct (IH b Hl) as [Ha Hb].
    cbn [green_marks pool agreed]. rewrite (Ascii.eqb_sym y x).
    destruct (Ascii.eqb_spec x y) as [->|Hne].
    + split.
      * rewrite <- Permutation_middle. by constructor.
      * rewrite <- Permutation_middle. by constructor.
    + split; simpl; by constructor.
Qed.

Lemma pool_anagram a b :
  a ≡ₚ b → pool a (green_marks a b) ≡ₚ pool b (green_marks b a).
Proof.
  intros Hp. destruct (pool_agreed a b (Permutation_length Hp)) as [Ha Hb].
  apply (Permutation_app_inv_r (agreed a b)).
  by rewrite <- Ha, <- Hb.
Qed.

Lemma claim_pool x s : ∀ u, In x (pool s u) →
  ∃ u', claim x s u = Some u' ∧ pool s u ≡ₚ x :: pool s u'.
Proof.
  induction s as [|y s IH]; intros [|b u] Hin; simpl in Hin; try tauto.
  cbn [claim pool]. destruct b; cbn [negb andb].
  - destruct (IH u Hin) as (u' & -> & Hp). exists (true :: u'). by split.
  - destruct (Ascii.eqb_spec y x) as [->|Hne].
    + exists (true :: u). split; reflexivity.
    + destruct Hin as [Heq|Hin]; [contradiction|].
      destruct (IH u Hin) as (u' & -> & Hp). exists (false :: u').
      split; [reflexivity|]. cbn [pool]. rewrite Hp. apply perm_swap.
Qed.

Lemma yellow_pass_anagram g : ∀ gu s su,
  length gu = length g → pool g gu ≡ₚ pool s su →
  (yellow_pass g gu s su).1 = unmarked gu.
Proof.
  induction g as [|x g IH]; intros [|b gu] s su Hl Hp; try discriminate.
  - reflexivity.
  - injection Hl as Hl. cbn [yellow_pass unmarked pool] in *. destruct b.
    + rewrite (IH gu s su Hl Hp). lia.
    + destruct (claim_pool x s su) as (su' & -> & Hsu).
      { apply (Permutation_in x Hp). by left. }
      rewrite Hsu in Hp. apply Permutation_cons_inv in Hp.
      specialize (IH gu s su' Hl Hp).
      destruct (yellow_pass g gu s su'). simpl in *. lia.
Qed.

Lemma feedback_pure_anagram g s :
  g ≡ₚ s →
  (feedback_pure g s).1 + (feedback_pure g s).2 = Z.of_nat (length g).
Proof.
  intros Hp. unfold feedback_pure. cbn [fst snd].
  rewrite yellow_pass_anagram.
  - by rewrite marked_unmarked, length_green_marks.
  - apply length_green_marks.
  - by apply pool_anagram.
Qed.

(** ** The scorer: totality and bounds *)

Lemma chars_lower s : chars (lower s) = map lower_char (chars s).
Proof. induction s as [|c s IH]; simpl; [reflexivity|]. f_equal. apply IH. Qed.

Lemma len_lower s : len (lower s) = len s.
Proof. induction s as [|c s IH]; simpl; [reflexivity|]. f_equal. apply IH. Qed.

Lemma range_lt n i : i ∈ range n → (i < n)%nat.
Proof. unfold range. rewrite elem_of_seq. lia. Qed.

(** C10: for two words of any lengths the scorer raises no [IndexError]
    and returns a pair; the first loop runs over the indices below
    [min(len(guess), len(secret))] only, and greens + yellows is at most
    that minimum. *)
Theorem calculate_hurdle_feedback_total (guess secret : string) :
  ∃ greens yellows,
    calculate_hurdle_feedback guess secret = Some (greens, yellows) ∧
    (∀ i, i ∈ range (min (len (lower guess)) (len (lower secret))) →
          (i < min (len guess) (len secret))%nat) ∧
    greens + yellows ≤ Z.of_nat (min (len guess) (len secret)).
Proof.
  rewrite calculate_hurdle_feedback_pure.
  pose proof (feedback_pure_bounds (chars (lower guess)) (chars (lower secret)))
    as (_ & _ & Hle).
  rewrite <- !len_chars, !len_lower in Hle.
  destruct (feedback_pure _ _) as [greens yellows].
  exists greens, yellows. split; [reflexivity|]. split; [|exact Hle].
  intros i Hi. apply range_lt in Hi. by rewrite !len_lower in Hi.
Qed.

(** C6: for two words of the same length L the counts are not negative
    and greens + yellows is at most L; it is L when the two words are
    anagrams of each other. *)
Theorem calculate_hurdle_feedback_bounds (guess secret : string) :
  len guess = len secret →
  ∃ greens yellows,
    calculate_hurdle_feedback guess secret = Some (greens, yellows) ∧
    0 ≤ greens ∧ 0 ≤ yellows ∧
    greens + yellows ≤ Z.of_nat (len guess) ∧
    (chars guess ≡ₚ chars secret → greens + yellows = Z.of_nat (len guess)).
Proof.
  intros Hlen. rewrite calculate_hurdle_feedback_pure.
  pose proof (feedback_pure_bounds (chars (lower guess)) (chars (lower secret)))
    as (Hg & Hy & Hle).
  pose proof (feedback_pure_anagram (chars (lower guess)) (chars (lower secret)))
    as Hana.
  rewrite <- !len_chars, !len_lower in *. rewrite <- Hlen, Nat.min_id in Hle.
  destruct (feedback_pure _ _) as [greens yellows].
  exists greens, yellows. repeat split; try assumption.
  intros Hp. apply Hana. rewrite !chars_lower. by apply Permutation_map.
Qed.

Lemma calculate_hurdle_feedback_bounds_witness :
  ∃ greens yellows,
    calculate_hurdle_feedback "tnalp" "plant" = Some (greens, yellows) ∧
    0 ≤ greens ∧ 0 ≤ yellows ∧
    greens + yellows ≤ Z.of_nat (len "tnalp") ∧
    (chars "tnalp" ≡ₚ chars "plant" →
     greens + yellows = Z.of_nat (len "tnalp")).
Proof. apply (calculate_hurdle_feedback_bounds "tnalp" "plant"). reflexivity. Defined.

(** ** The scorer computes the two-pass reference algorithm *)

Lemma green_marks_lookup a : ∀ b i x y,
  a !! i = Some x → b !! i = Some y →
  green_marks a b !! i = Some (Ascii.eqb x y).
Proof.
  induction a as [|x0 a IH]; intros [|y0 b] [|i] x y Ha Hb;
    simpl in *; try discriminate.
  - by simplify_eq.
  - by apply IH.
Qed.

Lemma marked_app m1 m2 : marked (m1 ++ m2) = marked m1 + marked m2.
Proof. induction m1 as [|[] m1 IH]; simpl; lia. Qed.

Lemma ref_green_prefix guess secret k :
  len guess = len secret → (k ≤ len guess)%nat →
  ∃ cg cs,
    foldl (ref_green_step guess secret) (0, ∅, ∅) (seq 0 k)
    = (marked (take k (green_marks (chars guess) (chars secret))), cg, cs) ∧
    (∀ j, j ∈ cg ↔
          (j < k)%nat ∧
          green_marks (chars guess) (chars secret) !! j = Some true) ∧
    (∀ j, j ∈ cs ↔
          (j < k)%nat ∧
          green_marks (chars secret) (chars guess) !! j = Some true).
Proof.
  intros Hlen. induction k as [|k IH]; intros Hk.
  - exists ∅, ∅. split; [reflexivity|].
    split; intros j; rewrite elem_of_empty; (split; [tauto|intros [? _]; lia]).
  - destruct IH as (cg & cs & Hfold & Hcg & Hcs); [lia|].
    rewrite seq_S, foldl_app, Hfold. cbn [foldl ref_green_step].
    rewrite !char_at_chars. rewrite Nat.add_0_l.
    destruct (lookup_lt_is_Some_2 (chars guess) k) as [x Hx];
      [rewrite <- len_chars; lia|].
    destruct (lookup_lt_is_Some_2 (chars secret) k) as [y Hy];
      [rewrite <- len_chars; lia|].
    pose proof (green_marks_lookup _ _ _ _ _ Hx Hy) as Hg.
    pose proof (green_marks_lookup _ _ _ _ _ Hy Hx) as Hs.
    rewrite (Ascii.eqb_sym y x) in Hs.
    rewrite (take_S_r _ _ _ Hg), marked_app, Hx, Hy. cbn [marked].
    destruct (Ascii.eqb_spec x y) as [->|Hne].
    + rewrite bool_decide_eq_true_2 by reflexivity.
      exists ({[k]} ∪ cg), ({[k]} ∪ cs). split; [f_equal; f_equal; lia|].
      split; intros j; rewrite elem_of_union, elem_of_singleton.
      * rewrite Hcg. split.
        -- intros [->|[? ?]]; split; auto; lia.
        -- intros [Hj Hm]. destruct (decide (j = k)); [by left|right].
           split; [lia|done].
      * rewrite Hcs. split.
        -- intros [->|[? ?]]; split; auto; lia.
        -- intros [Hj Hm]. destruct (decide (j = k)); [by left|right].
           split; [lia|done].
    + rewrite bool_decide_eq_false_2 by congruence.
      exists cg, cs. split; [f_equal; f_equal; lia|].
      split; intros j.
      * rewrite Hcg. split.
        -- intros [? ?]; split; auto; lia.
        -- intros [Hj Hm]. split; [|done].
           destruct (decide (j = k)) as [->|]; [congruence|lia].
      * rewrite Hcs. split.
        -- intros [? ?]; split; auto; lia.
        -- intros [Hj Hm]. split; [|done].
           destruct (decide (j = k)) as [->|]; [congruence|lia].
Qed.

Lemma flags_of_marks (m : list bool) (c : gset nat) :
  (∀ j, j ∈ c ↔ (j < length m)%nat ∧ m !! j = Some true) →
  m = flags_of c (length m).
Proof.
  intros Hc. apply list_eq. intros i. unfold flags_of.
  rewrite list_lookup_fmap.
  destruct (decide (i < length m)%nat) as [Hi|Hi].
  - rewrite lookup_seq_lt by done. simpl.
    destruct (lookup_lt_is_Some_2 m i Hi) as [b Hb]. rewrite Hb. f_equal.
    destruct b.
    + symmetry. apply bool_decide_eq_true_2. apply Hc. by split.
    + symmetry. apply bool_decide_eq_false_2. rewrite Hc.
      intros [_ ?]. congruence.
  - rewrite lookup_ge_None_2 by lia.
    rewrite lookup_ge_None_2; [done|]. rewrite length_seq. lia.
Qed.

(** The inner loop claims the lowest unflagged position that holds the
    letter. *)
Lemma claim_lowest x s : ∀ u, length u = length s →
  match claim x s u with
  | Some u' =>
      ∃ j, u !! j = Some false ∧ s !! j = Some x ∧
           (∀ j', (j' < j)%nat → ¬ (u !! j' = Some false ∧ s !! j' = Some x)) ∧
           u' = <[j:=true]> u
  | None => ∀ j, ¬ (u !! j = Some false ∧ s !! j = Some x)
  end.
Proof.
  induction s as [|y s IH]; intros [|b u] Hl; try discriminate.
  - simpl. intros j [? _]. discriminate.
  - injection Hl as Hl. specialize (IH u Hl). cbn [claim].
    destruct (negb b && Ascii.eqb y x) eqn:E.
    + apply andb_true_iff in E as [Eb Ey]. destruct b; [discriminate|].
      apply Ascii.eqb_eq in Ey as ->.
      exists 0%nat. repeat split; auto. intros j' Hj'. lia.
    + assert (Hhead : ¬ (b = false ∧ y = x)).
      { intros [-> ->]. simpl in E. by rewrite Ascii.eqb_refl in E. }
      destruct (claim x s u) as [u0|]; simpl.
      * destruct IH as (j & Hu & Hs & Hmin & ->).
        exists (S j). repeat split; auto.
        intros [|j'] Hj'; simpl.
        -- intros [? ?]. apply Hhead. split; congruence.
        -- apply Hmin. lia.
      * intros [|j]; simpl.
        -- intros [? ?]. apply Hhead. split; congruence.
        -- apply IH.
Qed.

Lemma flags_of_lookup c n j :
  (j < n)%nat → flags_of c n !! j = Some (bool_decide (j ∈ c)).
Proof.
  intros Hj. unfold flags_of. rewrite list_lookup_fmap.
  by rewrite lookup_seq_lt.
Qed.

Lemma length_flags_of c n : length (flags_of c n) = n.
Proof. unfold flags_of. by rewrite length_fmap, length_seq. Qed.

Lemma flags_of_insert c n j :
  (j < n)%nat → <[j:=true]> (flags_of c n) = flags_of ({[j]} ∪ c) n.
Proof.
  intros Hj. apply list_eq. intros i.
  rewrite list_lookup_insert, length_flags_of.
  destruct (decide (i < n)%nat) as [Hi|Hi].
  - rewrite !flags_of_lookup by done. case_decide as Hd.
    + destruct Hd as [-> _]. f_equal. symmetry.
      apply bool_decide_eq_true_2.
      rewrite elem_of_union, elem_of_singleton. by left.
    + assert (j ≠ i) by (intros ->; apply Hd; by split).
      f_equal. apply bool_decide_ext.
      rewrite elem_of_union, elem_of_singleton.
      split; [tauto|intros [Heq|?]; [by subst|done]].
  - case_decide as Hd; [lia|].
    rewrite !lookup_ge_None_2; [done| |]; rewrite length_flags_of; lia.
Qed.

Lemma claim_ref secret (c : gset nat) x :
  match claim x (chars secret) (flags_of c (len secret)) with
  | Some u' =>
      ∃ j, ref_lowest secret c x = Some j ∧
           u' = flags_of ({[j]} ∪ c) (len secret)
  | None => ref_lowest secret c x = None
  end.
Proof.
  pose proof (claim_lowest x (chars secret) (flags_of c (len secret))) as H.
  rewrite length_flags_of, len_chars in H. specialize (H eq_refl).
  rewrite <- len_chars in H.
  assert (Hfree : ∀ j, flags_of c (len secret) !! j = Some false ↔
                       (j < len secret)%nat ∧ j ∉ c).
  { intros j. split.
    - intros Hj. assert (j < len secret)%nat as Hlt.
      { apply lookup_lt_Some in Hj. by rewrite length_flags_of in Hj. }
      split; [done|]. rewrite flags_of_lookup in Hj by done.
      injection Hj as Hj. by apply bool_decide_eq_false in Hj.
    - intros [Hlt Hn]. rewrite flags_of_lookup by done. f_equal.
      by apply bool_decide_eq_false. }
  unfold ref_lowest.
  destruct (claim x (chars secret) (flags_of c (len secret))) as [u'|].
  - destruct H as (j & Hu & Hs & Hmin & ->).
    apply Hfree in Hu as [Hlt Hn]. exists j. split.
    + assert (list_find
                (λ j0, (j0 ∉ c) ∧ char_at secret j0 = Some x)
                (seq 0 (len secret)) = Some (j, j)) as ->; [|done].
      apply list_find_Some. split; [by apply lookup_seq_lt|].
      split; [by rewrite char_at_chars|].
      intros j' y Hy Hj' [Hn' Hc']. apply lookup_seq in Hy as [-> Hlt'].
      simpl in *. apply (Hmin j' Hj'). split.
      * apply Hfree. by split.
      * by rewrite <- char_at_chars.
    + by apply flags_of_insert.
  - assert (list_find
              (λ j0, (j0 ∉ c) ∧ char_at secret j0 = Some x)
              (seq 0 (len secret)) = None) as ->; [|done].
    apply list_find_None. apply Forall_forall. intros j Hj [Hn Hc].
    apply elem_of_seq in Hj. apply (H j). split.
    + apply Hfree. split; [lia|done].
    + by rewrite <- char_at_chars.
Qed.

Lemma ref_yellow_suffix guess secret g2 : ∀ g1 gu2 y cg cs,
  chars guess = g1 ++ g2 → length gu2 = length g2 →
  (∀ i b, gu2 !! i = Some b → b = bool_decide (length g1 + i ∈ cg)%nat) →
  (foldl (ref_yellow_step guess secret) (y, cg, cs)
     (seq (length g1) (length g2))).1.1
  = y + (yellow_pass g2 gu2 (chars secret) (flags_of cs (len secret))).1.
Proof.
  induction g2 as [|x g2 IH]; intros g1 gu2 y cg cs Hg Hl Hgu.
  - destruct gu2; [|discriminate]. simpl. lia.
  - destruct gu2 as [|b gu2]; [discriminate|]. injection Hl as Hl.
    cbn [length seq foldl yellow_pass].
    assert (Hg' : chars guess = (g1 ++ [x]) ++ g2) by by rewrite <- app_assoc.
    assert (Hk : S (length g1) = length (g1 ++ [x]))
      by (rewrite length_app; simpl; lia).
    pose proof (Hgu 0%nat b eq_refl) as Hb. rewrite Nat.add_0_r in Hb.
    unfold ref_yellow_step at 2. rewrite <- Hb, Hk. destruct b.
    + apply IH; [done|done|]. intros i b' Hi.
      rewrite (Hgu (S i) b' Hi). apply bool_decide_ext.
      rewrite length_app. simpl. by rewrite <- Nat.add_assoc.
    + rewrite char_at_chars, Hg.
      rewrite (list_lookup_middle g1 g2 x) by reflexivity.
      pose proof (claim_ref secret cs x) as Hc.
      destruct (claim x (chars secret) (flags_of cs (len secret)))
        as [u'|].
      * destruct Hc as (j & -> & ->).
        rewrite (IH (g1 ++ [x]) gu2 (y + 1) _ ({[j]} ∪ cs)); [|done|done|].
        -- destruct (yellow_pass g2 gu2 (chars secret)
                       (flags_of ({[j]} ∪ cs) (len secret))).
           simpl. lia.
        -- intros i b' Hi. rewrite (Hgu (S i) b' Hi).
           apply bool_decide_ext. rewrite length_app. simpl.
           rewrite elem_of_union, elem_of_singleton.
           replace (length g1 + 1 + i)%nat with (length g1 + S i)%nat by lia.
           split; [tauto|intros [?|?]; [lia|done]].
      * rewrite Hc. apply IH; [done|done|]. intros i b' Hi.
        rewrite (Hgu (S i) b' Hi). apply bool_decide_ext.
        rewrite length_app. simpl. by rewrite <- Nat.add_assoc.
Qed.

Lemma feedback_pure_reference guess secret :
  len guess = len secret →
  feedback_pure (chars guess) (chars secret) = two_pass_reference guess secret.
Proof.
  intros Hlen. unfold feedback_pure, two_pass_reference, ref_green_pass.
  destruct (ref_green_prefix guess secret (len guess) Hlen (le_n _))
    as (cg & cs & -> & Hcg & Hcs).
  set (mg := green_marks (chars guess) (chars secret)) in *.
  set (ms := green_marks (chars secret) (chars guess)) in *.
  assert (Hlg : length mg = len guess)
    by (unfold mg; by rewrite length_green_marks, <- len_chars).
  assert (Hls : length ms = len secret)
    by (unfold ms; by rewrite length_green_marks, <- len_chars).
  rewrite take_ge by lia.
  assert (Hms : ms = flags_of cs (len secret)).
  { rewrite <- Hls. apply flags_of_marks. intros j. rewrite Hcs.
    rewrite Hls, Hlen. tauto. }
  assert (Hmg : mg = flags_of cg (len guess)).
  { rewrite <- Hlg. apply flags_of_marks. intros j. rewrite Hcg.
    rewrite Hlg. tauto. }
  pose proof (ref_yellow_suffix guess secret (chars guess) [] mg 0 cg cs
                eq_refl) as Hy.
  unfold ref_yellow_pass. rewrite len_chars. simpl in Hy.
  rewrite <- Hms in Hy.
  destruct (foldl (ref_yellow_step guess secret) (0, cg, cs)
              (seq 0 (length (chars guess)))) as [[yellows cg'] cs'].
  simpl in Hy. rewrite Hy; [reflexivity| |].
  - by rewrite Hlg, len_chars.
  - intros i b Hi. rewrite Hmg in Hi.
    assert (i < len guess)%nat as Hlt.
    { apply lookup_lt_Some in Hi. by rewrite length_flags_of in Hi. }
    rewrite flags_of_lookup in Hi by done. by injection Hi as <-.
Qed.

(** The scorer lowers its arguments and then computes the reference. *)
Lemma calculate_hurdle_feedback_lower_reference guess secret :
  len guess = len secret →
  calculate_hurdle_feedback guess secret
  = Some (two_pass_reference (lower guess) (lower secret)).
Proof.
  intros Hlen. rewrite calculate_hurdle_feedback_pure.
  rewrite feedback_pure_reference; [reflexivity|].
  by rewrite !len_lower.
Qed.

(** C1: on two lower-case words of the same length the scorer returns the
    counts of the two-pass reference algorithm: the green pass consumes
    every index where the words agree, and the yellow pass lets each
    unconsumed guess position, left to right, claim the lowest unconsumed
    secret position that holds its letter. *)
Theorem calculate_hurdle_feedback_reference (guess secret : string) :
  len guess = len secret → lower guess = guess → lower secret = secret →
  calculate_hurdle_feedback guess secret
  = Some (two_pass_reference guess secret).
Proof.
  intros Hlen Hg Hs.
  rewrite (calculate_hurdle_feedback_lower_reference guess secret Hlen).
  by rewrite Hg, Hs.
Qed.

Lemma calculate_hurdle_feedback_reference_witness :
  calculate_hurdle_feedback "apple" "plant"
  = Some (two_pass_reference "apple" "plant").
Proof.
  apply (calculate_hurdle_feedback_reference "apple" "plant"); reflexivity.
Defined.

(** ** Strings *)

Lemma string_app_nil_l s : "" +:+ s = s.
Proof. reflexivity. Qed.

Lemma string_app_cons c s t : String c s +:+ t = String c (s +:+ t).
Proof. reflexivity. Qed.

Lemma string_app_nil_r s : s +:+ "" = s.
Proof.
  induction s as [|c s IH]; [reflexivity|].
  rewrite string_app_cons. f_equal. apply IH.
Qed.

Lemma string_app_assoc s1 s2 s3 : (s1 +:+ s2) +:+ s3 = s1 +:+ (s2 +:+ s3).
Proof.
  induction s1 as [|c s1 IH]; [reflexivity|].
  rewrite !string_app_cons. f_equal. apply IH.
Qed.

Lemma len_app s1 s2 : len (s1 +:+ s2) = (len s1 + len s2)%nat.
Proof.
  induction s1 as [|c s1 IH]; [reflexivity|].
  rewrite string_app_cons. simpl. f_equal. apply IH.
Qed.

Lemma chars_app s1 s2 : chars (s1 +:+ s2) = chars s1 ++ chars s2.
Proof.
  induction s1 as [|c s1 IH]; [reflexivity|].
  rewrite string_app_cons. simpl. f_equal. apply IH.
Qed.

Lemma occurs_in_app_l sub s t : occurs_in sub s → occurs_in sub (t +:+ s).
Proof.
  intros (pre & post & ->). exists (t +:+ pre), post.
  by rewrite string_app_assoc.
Qed.

Lemma lower_char_idem c : lower_char (lower_char c) = lower_char c.
Proof. destruct c as [[] [] [] [] [] [] [] []]; reflexivity. Qed.

Lemma upper_lower_char c : upper_char (lower_char c) = upper_char c.
Proof. destruct c as [[] [] [] [] [] [] [] []]; reflexivity. Qed.

Lemma lower_idem s : lower (lower s) = lower s.
Proof.
  unfold lower. induction s as [|c s IH]; simpl; [reflexivity|].
  f_equal; [apply lower_char_idem|apply IH].
Qed.

Lemma upper_lower s : upper (lower s) = upper s.
Proof.
  unfold upper, lower. induction s as [|c s IH]; simpl; [reflexivity|].
  f_equal; [apply upper_lower_char|apply IH].
Qed.

(** ** The bracket pattern *)

Lemma span_spec p s : ∀ w r, span p s = (w, r) →
  s = w +:+ r ∧ all_chars p w ∧
  match r with String c _ => p c = false | EmptyString => True end.
Proof.
  induction s as [|c s IH]; intros w r H; simpl in H.
  - injection H as <- <-. repeat split. constructor.
  - destruct (p c) eqn:E.
    + destruct (span p s) as [w0 r0]. injection H as <- <-.
      destruct (IH w0 r0 eq_refl) as (-> & Hall & Hr).
      repeat split; [|done]. by constructor.
    + injection H as <- <-. repeat split; [constructor|done].
Qed.

Lemma span_app p w : ∀ c r,
  all_chars p w → p c = false → span p (w +:+ String c r) = (w, String c r).
Proof.
  induction w as [|a w IH]; intros c r Hall Hc.
  - rewrite string_app_nil_l. simpl. by rewrite Hc.
  - inversion Hall as [|? ? Ha Hall']; subst.
    rewrite string_app_cons. simpl. rewrite Ha.
    by rewrite (IH c r Hall' Hc).
Qed.

Lemma match_bracket_Some s w :
  match_bracket s = Some w →
  w ≠ EmptyString ∧ all_chars is_word w ∧
  ∃ post, s = "[" +:+ w +:+ "]" +:+ post.
Proof.
  unfold match_bracket. destruct s as [|a s]; [discriminate|].
  destruct (Ascii.eqb_spec a "[") as [->|Hne].
  - destruct (span is_word s) as [w0 r0] eqn:E.
    destruct (span_spec _ _ _ _ E) as (-> & Hall & _).
    destruct w0 as [|c w0]; [intros; discriminate|].
    destruct r0 as [|b r0]; [intros; discriminate|].
    destruct (Ascii.eqb_spec b "]") as [->|Hb].
    + intros [= <-]. split; [done|]. split; [done|]. by exists r0.
    + intros H. exfalso. revert H.
      destruct b as [[] [] [] [] [] [] [] []]; try discriminate. congruence.
  - intros H. exfalso. revert H.
    destruct a as [[] [] [] [] [] [] [] []]; try discriminate. congruence.
Qed.

Lemma match_bracket_token w post :
  w ≠ EmptyString → all_chars is_word w →
  match_bracket ("[" +:+ w +:+ "]" +:+ post) = Some w.
Proof.
  intros Hw Hall.
  change ("[" +:+ w +:+ "]" +:+ post)
    with (String "[" (w +:+ String "]" post)).
  unfold match_bracket.
  rewrite (span_app is_word w "]" post Hall eq_refl).
  destruct w; [done|reflexivity].
Qed.

Lemma re_search_bracket_cons a s :
  re_search_bracket (String a s)
  = match match_bracket (String a s) with
    | Some w => Some w
    | None => re_search_bracket s
    end.
Proof. reflexivity. Qed.

Lemma re_search_bracket_Some action w :
  re_search_bracket action = Some w → bracket_token action w.
Proof.
  induction action as [|a s IH]; [discriminate|].
  rewrite re_search_bracket_cons.
  - destruct (match_bracket (String a s)) as [w0|] eqn:E.
    + intros [= ->]. apply match_bracket_Some in E as (Hw & Hall & post & E).
      split; [done|]. split; [done|]. exists "", post.
      by rewrite E, string_app_nil_l, !string_app_assoc.
    + intros H. destruct (IH H) as (Hw & Hall & Hocc).
      split; [done|]. split; [done|].
      by apply (occurs_in_app_l _ s (String a "")).
Qed.

Lemma re_search_bracket_found pre : ∀ w post,
  w ≠ EmptyString → all_chars is_word w →
  is_Some (re_search_bracket (pre +:+ "[" +:+ w +:+ "]" +:+ post)).
Proof.
  induction pre as [|a pre IH]; intros w post Hw Hall.
  - change ("" +:+ "[" +:+ w +:+ "]" +:+ post)
      with ("[" +:+ w +:+ "]" +:+ post).
    pose proof (match_bracket_token w post Hw Hall) as Hm.
    change ("[" +:+ w +:+ "]" +:+ post)
      with (String "[" (w +:+ "]" +:+ post)) in *.
    by rewrite re_search_bracket_cons, Hm.
  - rewrite string_app_cons, re_search_bracket_cons.
    destruct (match_bracket _); [done|]. by apply IH.
Qed.

(** The search fails exactly on the actions without a bracket token. *)
Lemma re_search_bracket_None action :
  re_search_bracket action = None ↔ ¬ ∃ w, bracket_token action w.
Proof.
  split.
  - intros Hnone (w & Hw & Hall & pre & post & ->).
    destruct (re_search_bracket_found pre w post Hw Hall) as [w' Hsome].
    rewrite !string_app_assoc in Hnone. cbn in Hnone, Hsome. congruence.
  - intros Hno. destruct (re_search_bracket action) as [w|] eqn:E; [|done].
    exfalso. apply Hno. exists w. by apply re_search_bracket_Some.
Qed.

(** ** The engine: malformed submissions *)

Lemma step_no_match st action :
  re_search_bracket action = None →
  step action st
  = Some (done st,
          set_reward (current_reward st)
            (set_reason wrong_format_reason empty_info),
          set_invalid_move
            (_get_percentage_completion (add_observation action PLAYER_ACTION st))
            wrong_format_reason (add_observation action PLAYER_ACTION st)).
Proof. intros H. unfold step. rewrite H. reflexivity. Qed.

Lemma step_wrong_length st action w :
  re_search_bracket action = Some w →
  Z.of_nat (len w) ≠ word_length (game_state st) →
  step action st
  = Some (done st,
          set_reward (current_reward st)
            (set_reason (length_reason (word_length (game_state st)))
               empty_info),
          set_invalid_move
            (_get_percentage_completion (add_observation action PLAYER_ACTION st))
            (length_reason (word_length (game_state st)))
            (add_observation action PLAYER_ACTION st)).
Proof.
  intros H Hl. unfold step. rewrite H, len_lower. cbn [game_state add_observation].
  destruct (Z.eqb_spec (Z.of_nat (len w)) (word_length (game_state st)));
    [contradiction|].
  reflexivity.
Qed.

(** C3: a submission without a bracket token, or whose token has a length
    other than L, appends nothing to the history, leaves the game state,
    the terminal flag and the reward of the episode as they are, takes one
    unit of the error allowance, returns the terminal flag unchanged (so
    does not end an episode that was not over), and gives the wrong-format
    reason, respectively the reason that names the length. *)
Theorem step_malformed (st : State) (action : string) :
  (¬ (∃ w, bracket_token action w)) ∨
  (∃ w, re_search_bracket action = Some w ∧
        Z.of_nat (len w) ≠ word_length (game_state st)) →
  ∃ info st',
    step action st = Some (done st, info, st') ∧
    guess_history (game_state st') = guess_history (game_state st) ∧
    game_state st' = game_state st ∧
    done st' = done st ∧ rewards st' = rewards st ∧
    error_allowance st' = error_allowance st - 1 ∧
    ((¬ (∃ w, bracket_token action w)) →
     reason info = Some wrong_format_reason ∧
     occurs_in "wrong format" wrong_format_reason) ∧
    (∀ w, re_search_bracket action = Some w →
          reason info
          = Some ("Your word must be exactly "
                  +:+ str_of_Z (word_length (game_state st))
                  +:+ " letters.")).
Proof.
  intros [Hno|(w & Hw & Hl)].
  - apply re_search_bracket_None in Hno as Hnone.
    eexists _, _. split; [by apply step_no_match|].
    repeat split; try reflexivity.
    + exists "You tried submitting a word in the ",
        ". Please make sure to use squared brackets.". reflexivity.
    + intros w Hw. congruence.
  - eexists _, _. split; [by apply (step_wrong_length st action w)|].
    assert (Hsome : ∃ w, bracket_token action w)
      by (exists w; by apply re_search_bracket_Some).
    repeat split; try reflexivity; contradiction.
Qed.

Lemma step_malformed_witness :
  ∃ info st',
    step "plant" (reset "plant" 5 8)
    = Some (done (reset "plant" 5 8), info, st') ∧
    guess_history (game_state st')
    = guess_history (game_state (reset "plant" 5 8)) ∧
    game_state st' = game_state (reset "plant" 5 8) ∧
    done st' = done (reset "plant" 5 8) ∧
    rewards st' = rewards (reset "plant" 5 8) ∧
    error_allowance st' = error_allowance (reset "plant" 5 8) - 1 ∧
    ((¬ (∃ w, bracket_token "plant" w)) →
     reason info = Some wrong_format_reason ∧
     occurs_in "wrong format" wrong_format_reason) ∧
    (∀ w, re_search_bracket "plant" = Some w →
          reason info
          = Some ("Your word must be exactly "
                  +:+ str_of_Z (word_length (game_state (reset "plant" 5 8)))
                  +:+ " letters.")).
Proof.
  apply (step_malformed (reset "plant" 5 8) "plant").
  left. apply re_search_bracket_None. reflexivity.
Defined.

(** ** The engine: scored submissions *)

(** Unfolds [step] on a submission whose token [w] has the right length,
    up to the win check. *)
Ltac step_scored Hs Hl :=
  unfold step; rewrite Hs, len_lower;
  cbn [game_state add_observation secret_word word_length];
  rewrite Hl, Z.eqb_refl; cbn [negb];
  rewrite calculate_hurdle_feedback_pure;
  destruct (feedback_pure _ _) as [greens yellows];
  cbn [mbind option_bind]; rewrite lower_idem.

Lemma step_win st action w :
  re_search_bracket action = Some w →
  Z.of_nat (len w) = word_length (game_state st) →
  lower w = lower (secret_word (game_state st)) →
  ∃ greens yellows info st',
    calculate_hurdle_feedback (lower w) (secret_word (game_state st))
    = Some (greens, yellows) ∧
    step action st = Some (true, info, st') ∧
    reward info = Some 1%Q ∧ reason info = Some win_reason ∧
    outcome st' = Some Won ∧ done st' = true ∧
    guess_history (game_state st')
    = guess_history (game_state st) ++ [(lower w, (greens, yellows))] ∧
    num_guesses (game_state st') = num_guesses (game_state st).
Proof.
  intros Hs Hl Hw.
  step_scored Hs Hl. rewrite Hw, String.eqb_refl.
  eexists _, _, _, _. split; [reflexivity|]. repeat split.
Qed.

Lemma step_lose st action w :
  re_search_bracket action = Some w →
  Z.of_nat (len w) = word_length (game_state st) →
  lower w ≠ lower (secret_word (game_state st)) →
  num_guesses (game_state st)
    ≤ Z.of_nat (length (guess_history (game_state st))) + 1 →
  ∃ greens yellows info st',
    calculate_hurdle_feedback (lower w) (secret_word (game_state st))
    = Some (greens, yellows) ∧
    step action st = Some (true, info, st') ∧
    reward info = Some 0%Q ∧
    reason info = Some (lose_reason (secret_word (game_state st))) ∧
    outcome st' = Some Lost ∧ done st' = true ∧
    guess_history (game_state st')
    = guess_history (game_state st) ++ [(lower w, (greens, yellows))] ∧
    num_guesses (game_state st') = num_guesses (game_state st).
Proof.
  intros Hs Hl Hw Hm.
  step_scored Hs Hl.
  destruct (String.eqb_spec (lower w) (lower (secret_word (game_state st))));
    [contradiction|].
  unfold append_history, add_observation.
  cbn [game_state guess_history num_guesses].
  rewrite length_app. cbn [length].
  destruct (Z.geb_spec
              (Z.of_nat (length (guess_history (game_state st)) + 1))
              (num_guesses (game_state st))); [|lia].
  eexists _, _, _, _. split; [reflexivity|]. repeat split.
Qed.

Lemma step_continue st action w :
  re_search_bracket action = Some w →
  Z.of_nat (len w) = word_length (game_state st) →
  lower w ≠ lower (secret_word (game_state st)) →
  Z.of_nat (length (guess_history (game_state st))) + 1
    < num_guesses (game_state st) →
  ∃ greens yellows info st',
    calculate_hurdle_feedback (lower w) (secret_word (game_state st))
    = Some (greens, yellows) ∧
    step action st = Some (done st, info, st') ∧
    reward info = Some (partial_credit greens yellows) ∧
    latest_observation info = Some (feedback_text (lower w) greens yellows) ∧
    last (observations st')
    = Some (GAME_MESSAGE, feedback_text (lower w) greens yellows) ∧
    done st' = done st ∧ rewards st' = rewards st ∧
    guess_history (game_state st')
    = guess_history (game_state st) ++ [(lower w, (greens, yellows))] ∧
    num_guesses (game_state st') = num_guesses (game_state st).
Proof.
  intros Hs Hl Hw Hm.
  step_scored Hs Hl.
  destruct (String.eqb_spec (lower w) (lower (secret_word (game_state st))));
    [contradiction|].
  unfold append_history, add_observation.
  cbn [game_state guess_history num_guesses].
  rewrite length_app. cbn [length].
  destruct (Z.geb_spec
              (Z.of_nat (length (guess_history (game_state st)) + 1))
              (num_guesses (game_state st))); [lia|].
  eexists _, _, _, _. split; [reflexivity|]. repeat split.
  cbn [observations add_observation]. by rewrite last_snoc.
Qed.

(** C2: on a well-formed submission whose token has length L, a token
    equal to the secret without regard to case ends the episode with
    outcome Won and reward 1, whatever the number of earlier guesses (the
    win check comes first); otherwise, when the history holds M records
    after the append, the turn ends the episode with outcome Lost, reward
    0 and a reason that shows the secret in upper case. *)
Theorem step_terminal (st : State) (action w : string) :
  re_search_bracket action = Some w →
  Z.of_nat (len w) = word_length (game_state st) →
  (lower w = lower (secret_word (game_state st)) →
   ∃ info st',
     step action st = Some (true, info, st') ∧
     reward info = Some 1%Q ∧ outcome st' = Some Won) ∧
  (lower w ≠ lower (secret_word (game_state st)) →
   Z.of_nat (length (guess_history (game_state st)) + 1)
   = num_guesses (game_state st) →
   ∃ info st' r,
     step action st = Some (true, info, st') ∧
     reward info = Some 0%Q ∧ outcome st' = Some Lost ∧
     Z.of_nat (length (guess_history (game_state st')))
     = num_guesses (game_state st') ∧
     reason info = Some r ∧
     occurs_in (upper (secret_word (game_state st))) r).
Proof.
  intros Hs Hl. split.
  - intros Hw.
    destruct (step_win st action w Hs Hl Hw)
      as (g & y & info & st' & _ & Hstep & Hr & _ & Ho & _).
    by exists info, st'.
  - intros Hw Hm.
    destruct (step_lose st action w Hs Hl Hw)
      as (g & y & info & st' & _ & Hstep & Hr & Hreason & Ho & _ & Hh & Hn);
      [lia|].
    exists info, st', (lose_reason (secret_word (game_state st))).
    repeat split; try done.
    + rewrite Hh, Hn, length_app. simpl. lia.
    + exists "Game over! The word was '", "'.". reflexivity.
Qed.

Lemma step_terminal_witness :
  (lower "PLANT" = lower (secret_word (game_state (reset "plant" 5 1))) →
   ∃ info st',
     step "I guess [PLANT]" (reset "plant" 5 1) = Some (true, info, st') ∧
     reward info = Some 1%Q ∧ outcome st' = Some Won) ∧
  (lower "PLANT" ≠ lower (secret_word (game_state (reset "plant" 5 1))) →
   Z.of_nat (length (guess_history (game_state (reset "plant" 5 1))) + 1)
   = num_guesses (game_state (reset "plant" 5 1)) →
   ∃ info st' r,
     step "I guess [PLANT]" (reset "plant" 5 1) = Some (true, info, st') ∧
     reward info = Some 0%Q ∧ outcome st' = Some Lost ∧
     Z.of_nat (length (guess_history (game_state st')))
     = num_guesses (game_state st') ∧
     reason info = Some r ∧
     occurs_in (upper (secret_word (game_state (reset "plant" 5 1)))) r).
Proof.
  apply (step_terminal (reset "plant" 5 1) "I guess [PLANT]" "PLANT");
    reflexivity.
Defined.

(** ** The engine: the continue turn *)

Lemma calculate_hurdle_feedback_range guess secret greens yellows :
  calculate_hurdle_feedback guess secret = Some (greens, yellows) →
  0 ≤ greens ∧ 0 ≤ yellows ∧
  greens + yellows ≤ Z.of_nat (min (len guess) (len secret)).
Proof.
  rewrite calculate_hurdle_feedback_pure.
  pose proof (feedback_pure_bounds (chars (lower guess)) (chars (lower secret)))
    as H.
  rewrite <- !len_chars, !len_lower in H.
  destruct (feedback_pure _ _) as [g y]. by intros [= <- <-].
Qed.

Lemma partial_credit_range greens yellows n :
  0 ≤ greens → 0 ≤ yellows → greens + yellows ≤ n →
  (0 <= partial_credit greens yellows)%Q ∧
  (partial_credit greens yellows <= inject_Z n * (3 # 10))%Q.
Proof.
  intros Hg Hy Hn. unfold partial_credit, Qle, Qplus, Qmult, inject_Z.
  cbn [Qnum Qden]. split; lia.
Qed.

Lemma feedback_text_word word greens yellows :
  occurs_in ("[" +:+ upper word +:+ "]") (feedback_text word greens yellows).
Proof.
  exists "You submitted ",
    ("." +:+ nl +:+ "Feedback: greens: " +:+ str_of_Z greens +:+
     ", yellows: " +:+ str_of_Z yellows).
  unfold feedback_text. by rewrite !string_app_assoc.
Qed.

Lemma feedback_text_counts word greens yellows :
  occurs_in ("Feedback: greens: " +:+ str_of_Z greens +:+
             ", yellows: " +:+ str_of_Z yellows)
    (feedback_text word greens yellows).
Proof.
  exists ("You submitted [" +:+ upper word +:+ "]." +:+ nl), "".
  unfold feedback_text. by rewrite string_app_nil_r, !string_app_assoc.
Qed.

(** C5, as the code has it: in an episode that is not over, a well-formed
    submission of the right length that is not the secret and leaves
    fewer than M records in the history returns is_done = false with
    reward 0.2 * greens + 0.1 * yellows, which lies between 0 and 0.3 * L;
    the message of the turn shows the submitted word in upper case between
    square brackets and the text "Feedback: greens: g, yellows: y" with
    the counts of the scorer. *)
Theorem step_continue_feedback (st : State) (action w : string) :
  done st = false →
  re_search_bracket action = Some w →
  Z.of_nat (len w) = word_length (game_state st) →
  lower w ≠ lower (secret_word (game_state st)) →
  Z.of_nat (length (guess_history (game_state st)) + 1)
    < num_guesses (game_state st) →
  ∃ greens yellows info st' msg,
    calculate_hurdle_feedback w (secret_word (game_state st))
    = Some (greens, yellows) ∧
    step action st = Some (false, info, st') ∧
    reward info = Some (partial_credit greens yellows) ∧
    (0 <= partial_credit greens yellows)%Q ∧
    (partial_credit greens yellows
     <= inject_Z (word_length (game_state st)) * (3 # 10))%Q ∧
    latest_observation info = Some msg ∧
    last (observations st') = Some (GAME_MESSAGE, msg) ∧
    occurs_in ("[" +:+ upper w +:+ "]") msg ∧
    occurs_in ("Feedback: greens: " +:+ str_of_Z greens +:+
               ", yellows: " +:+ str_of_Z yellows) msg.
Proof.
  intros Hd Hs Hl Hw Hm.
  destruct (step_continue st action w Hs Hl Hw)
    as (g & y & info & st' & Hc & Hstep & Hr & Hobs & Hlast & _); [lia|].
  exists g, y, info, st', (feedback_text (lower w) g y).
  destruct (calculate_hurdle_feedback_range _ _ _ _ Hc) as (Hg & Hy & Hle).
  rewrite len_lower in Hle.
  destruct (partial_credit_range g y (word_length (game_state st)) Hg Hy)
    as [H0 H1]; [lia|].
  rewrite Hd in Hstep.
  assert (Hc' : calculate_hurdle_feedback w (secret_word (game_state st))
                = Some (g, y)).
  { rewrite calculate_hurdle_feedback_pure in *. by rewrite lower_idem in Hc. }
  repeat split; try done.
  - rewrite <- (upper_lower w). apply feedback_text_word.
  - apply feedback_text_counts.
Qed.

Lemma step_continue_feedback_witness :
  ∃ greens yellows info st' msg,
    calculate_hurdle_feedback "Crane"
      (secret_word (game_state (reset "plant" 5 8)))
    = Some (greens, yellows) ∧
    step "[Crane]" (reset "plant" 5 8) = Some (false, info, st') ∧
    reward info = Some (partial_credit greens yellows) ∧
    (0 <= partial_credit greens yellows)%Q ∧
    (partial_credit greens yellows
     <= inject_Z (word_length (game_state (reset "plant" 5 8))) * (3 # 10))%Q ∧
    latest_observation info = Some msg ∧
    last (observations st') = Some (GAME_MESSAGE, msg) ∧
    occurs_in ("[" +:+ upper "Crane" +:+ "]") msg ∧
    occurs_in ("Feedback: greens: " +:+ str_of_Z greens +:+
               ", yellows: " +:+ str_of_Z yellows) msg.
Proof.
  apply (step_continue_feedback (reset "plant" 5 8) "[Crane]" "Crane");
    [reflexivity|reflexivity|reflexivity|discriminate|reflexivity].
Defined.

(** C5 as stated fails after the terminal turn: the submission below is
    well formed, of the right length, not the secret, and leaves 2 < 8
    records, yet the turn returns is_done = true. *)
Lemma step_continue_after_terminal :
  ∃ st info st',
    reachable (reset "plant" 5 8) st ∧
    re_search_bracket "[crane]" = Some "crane" ∧
    Z.of_nat (len "crane") = word_length (game_state st) ∧
    lower "crane" ≠ lower (secret_word (game_state st)) ∧
    Z.of_nat (length (guess_history (game_state st)) + 1)
      < num_guesses (game_state st) ∧
    step "[crane]" st = Some (true, info, st').
Proof.
  destruct (step "[plant]" (reset "plant" 5 8)) as [[[d1 i1] s1]|] eqn:E1;
    [|discriminate].
  destruct (step "[crane]" s1) as [[[d2 i2] s2]|] eqn:E2;
    [|vm_compute in E1; injection E1 as <- <- <-; discriminate].
  exists s1, i2, s2.
  split; [eapply reachable_step; [apply reachable_init|exact E1]|].
  vm_compute in E1. injection E1 as <- <- <-.
  repeat split; try reflexivity; try discriminate.
  vm_compute in E2. injection E2 as <- <- <-. reflexivity.
Qed.

(** ** The engine: the history of an episode *)

(** What a turn does to the history and to the terminal flag, by cases on
    the submission. *)
Lemma step_effect st action is_done info st' :
  step action st = Some (is_done, info, st') →
  num_guesses (game_state st') = num_guesses (game_state st) ∧
  ((is_done = done st ∧ done st' = done st ∧ rewards st' = rewards st ∧
    guess_history (game_state st') = guess_history (game_state st))
   ∨
   (∃ r, guess_history (game_state st') = guess_history (game_state st) ++ [r]) ∧
   ((is_done = true ∧ done st' = true ∧ outcome st' = Some Won)
    ∨ (is_done = true ∧ done st' = true ∧ outcome st' = Some Lost ∧
       num_guesses (game_state st)
       ≤ Z.of_nat (length (guess_history (game_state st))) + 1)
    ∨ (is_done = done st ∧ done st' = done st ∧ rewards st' = rewards st ∧
       Z.of_nat (length (guess_history (game_state st))) + 1
       < num_guesses (game_state st)))).
Proof.
  intros Hstep. destruct (re_search_bracket action) as [w|] eqn:Hs.
  - destruct (decide (Z.of_nat (len w) = word_length (game_state st)))
      as [Hl|Hl].
    + destruct (decide (lower w = lower (secret_word (game_state st))))
        as [Hw|Hw].
      * destruct (step_win st action w Hs Hl Hw)
          as (g & y & info0 & st0 & _ & Hstep0 & _ & _ & Ho & Hd & Hh & Hn).
        rewrite Hstep in Hstep0. injection Hstep0 as -> -> ->.
        split; [done|]. right. split; [by eexists|]. by left.
      * destruct (decide (Z.of_nat (length (guess_history (game_state st))) + 1
                          < num_guesses (game_state st))) as [Hm|Hm].
        -- destruct (step_continue st action w Hs Hl Hw Hm)
             as (g & y & info0 & st0 & _ & Hstep0 & _ & _ & _ & Hd & Hr
                 & Hh & Hn).
           rewrite Hstep in Hstep0. injection Hstep0 as -> -> ->.
           split; [done|]. right. split; [by eexists|]. right. by right.
        -- destruct (step_lose st action w Hs Hl Hw)
             as (g & y & info0 & st0 & _ & Hstep0 & _ & _ & Ho & Hd & Hh & Hn);
             [lia|].
           rewrite Hstep in Hstep0. injection Hstep0 as -> -> ->.
           split; [done|]. right. split; [by eexists|]. right. left.
           repeat split; try done. lia.
    + rewrite (step_wrong_length st action w Hs Hl) in Hstep.
      injection Hstep as <- <- <-. split; [done|]. by left.
  - rewrite (step_no_match st action Hs) in Hstep.
    injection Hstep as <- <- <-. split; [done|]. by left.
Qed.

(** Once the episode is over every further turn is terminal. *)
Lemma step_after_done st action is_done info st' :
  done st = true →
  step action st = Some (is_done, info, st') →
  is_done = true ∧ done st' = true.
Proof.
  intros Hd Hstep. destruct (step_effect _ _ _ _ _ Hstep) as [_ H].
  destruct H as [(-> & -> & _)|[_ [(-> & -> & _)|[(-> & -> & _)|(-> & -> & _)]]]];
    auto.
Qed.

Lemma played_invariant secret L M st :
  1 ≤ M → played (reset secret L M) st →
  num_guesses (game_state st) = M ∧
  (done st = false →
   Z.of_nat (length (guess_history (game_state st))) < M) ∧
  (done st = true →
   Z.of_nat (length (guess_history (game_state st))) ≤ M ∧
   (outcome st = Some Won ∨ outcome st = Some Lost)).
Proof.
  intros HM Hp. induction Hp as [|st action d info st' Hp IH Hd Hstep].
  - simpl. repeat split; try lia; discriminate.
  - destruct IH as (Hn & Hopen & _). specialize (Hopen Hd).
    destruct (step_effect _ _ _ _ _ Hstep) as [Hn' H].
    rewrite Hn in *. split; [done|].
    destruct H as [(_ & Hd' & _ & Hh)|[[r Hh] H]].
    + rewrite Hh, Hd', Hd. split; [done|discriminate].
    + rewrite Hh, length_app. cbn [length].
      destruct H as [(_ & Hd' & Ho)|[(_ & Hd' & Ho & Hle)|(_ & Hd' & _ & Hlt)]].
      * rewrite Hd'. split; [discriminate|]. intros _. split; [lia|by left].
      * rewrite Hd'. split; [discriminate|]. intros _. split; [lia|by right].
      * rewrite Hd', Hd. split; [intros _; lia|discriminate].
Qed.

(** C4, as the code has it: in an episode started by reset with M ≥ 1 in
    which nothing is submitted after the terminal turn, the history never
    holds more than M records (fewer than M while the episode is open), a
    terminal state carries the outcome Won or Lost, and from a terminal
    state every further turn is terminal again. *)
Theorem played_history_bound (secret : string) (L M : Z) (st : State) :
  1 ≤ M → played (reset secret L M) st →
  Z.of_nat (length (guess_history (game_state st))) ≤ M ∧
  (done st = false →
   Z.of_nat (length (guess_history (game_state st))) < M) ∧
  (done st = true → outcome st = Some Won ∨ outcome st = Some Lost) ∧
  (done st = true →
   ∀ action is_done info st',
     step action st = Some (is_done, info, st') →
     is_done = true ∧ done st' = true).
Proof.
  intros HM Hp.
  destruct (played_invariant secret L M st HM Hp) as (_ & Hopen & Hover).
  split; [|split; [done|split]].
  - destruct (done st); [by apply Hover|]. apply Z.lt_le_incl. by apply Hopen.
  - intros Hd. by apply Hover.
  - intros Hd action d info st' Hstep. by apply (step_after_done st action d info).
Qed.

Lemma reachable_run s0 actions : ∀ st st',
  reachable s0 st → run actions st = Some st' → reachable s0 st'.
Proof.
  induction actions as [|a actions IH]; intros st st' Hr Hrun; simpl in Hrun.
  - by injection Hrun as <-.
  - destruct (step a st) as [[[d info] st1]|] eqn:E; [|discriminate].
    apply (IH st1 st'); [|done]. by eapply reachable_step.
Qed.

Lemma played_history_bound_witness :
  Z.of_nat (length (guess_history
     (game_state (state_after ["[crane]"] (reset "plant" 5 8))))) ≤ 8 ∧
  (done (state_after ["[crane]"] (reset "plant" 5 8)) = false →
   Z.of_nat (length (guess_history
     (game_state (state_after ["[crane]"] (reset "plant" 5 8))))) < 8) ∧
  (done (state_after ["[crane]"] (reset "plant" 5 8)) = true →
   outcome (state_after ["[crane]"] (reset "plant" 5 8)) = Some Won ∨
   outcome (state_after ["[crane]"] (reset "plant" 5 8)) = Some Lost) ∧
  (done (state_after ["[crane]"] (reset "plant" 5 8)) = true →
   ∀ action is_done info st',
     step action (state_after ["[crane]"] (reset "plant" 5 8))
     = Some (is_done, info, st') →
     is_done = true ∧ done st' = true).
Proof.
  apply (played_history_bound "plant" 5 8
           (state_after ["[crane]"] (reset "plant" 5 8))).
  - lia.
  - eapply (played_step _ _ "[crane]"); [apply played_init|reflexivity|].
    vm_compute. reflexivity.
Defined.

(** C4 as stated fails: the engine does not refuse a submission made after
    the terminal turn.  After a win on the first turn a further well-formed
    submission appends a record to the history, and nine wrong guesses
    leave nine records in a game of eight.  With M = 0 the first wrong
    guess already leaves one record. *)
Lemma history_bound_fails :
  (∃ st info st',
     reachable (reset "plant" 5 8) st ∧
     outcome st = Some Won ∧
     step "[crane]" st = Some (true, info, st') ∧
     guess_history (game_state st')
     = guess_history (game_state st) ++ [("crane", (2, 0))]) ∧
  (∃ st,
     reachable (reset "plant" 5 8) st ∧
     num_guesses (game_state st) = 8 ∧
     length (guess_history (game_state st)) = 9%nat) ∧
  (∃ st,
     played (reset "plant" 5 0) st ∧
     num_guesses (game_state st) = 0 ∧
     length (guess_history (game_state st)) = 1%nat).
Proof.
  split; [|split].
  - destruct (step "[plant]" (reset "plant" 5 8)) as [[[d1 i1] s1]|] eqn:E1;
      [|discriminate].
    destruct (step "[crane]" s1) as [[[d2 i2] s2]|] eqn:E2;
      [|vm_compute in E1; injection E1 as <- <- <-; discriminate].
    exists s1, i2, s2.
    split; [eapply reachable_step; [apply reachable_init|exact E1]|].
    vm_compute in E1. injection E1 as <- <- <-.
    split; [reflexivity|].
    vm_compute in E2. injection E2 as <- <- <-. split; reflexivity.
  - exists (state_after
              ["[crane]"; "[audio]"; "[moist]"; "[blink]"; "[grump]";
               "[sword]"; "[quick]"; "[wrong]"; "[extra]"]
              (reset "plant" 5 8)).
    split; [|split; reflexivity].
    apply (reachable_run _
             ["[crane]"; "[audio]"; "[moist]"; "[blink]"; "[grump]";
              "[sword]"; "[quick]"; "[wrong]"; "[extra]"]
             (reset "plant" 5 8)); [apply reachable_init|].
    vm_compute. reflexivity.
  - exists (state_after ["[crane]"] (reset "plant" 5 0)).
    split; [|split; reflexivity].
    eapply (played_step _ _ "[crane]"); [apply played_init|reflexivity|].
    vm_compute. reflexivity.
Qed.

(** ** The reward functions *)

Lemma without_closing_bracket_app w :
  without_closing_bracket (w +:+ "]") = Some w.
Proof.
  induction w as [|c w IH]; [reflexivity|].
  rewrite string_app_cons. cbn [without_closing_bracket].
  rewrite IH. destruct w; reflexivity.
Qed.

Lemma without_closing_bracket_Some s : ∀ w,
  without_closing_bracket s = Some w → s = w +:+ "]".
Proof.
  induction s as [|c s IH]; intros w H; [discriminate|].
  cbn [without_closing_bracket] in H. destruct s as [|c' s'].
  - destruct (Ascii.eqb_spec c "]") as [->|]; [|discriminate].
    by injection H as <-.
  - destruct (without_closing_bracket (String c' s')) as [w0|] eqn:E;
      [|discriminate].
    injection H as <-. rewrite string_app_cons. f_equal. by apply IH.
Qed.

Lemma unbracket_Some s w : unbracket s = Some w ↔ s = "[" +:+ w +:+ "]".
Proof.
  split.
  - unfold unbracket. destruct s as [|a s]; [discriminate|].
    destruct (Ascii.eqb_spec a "[") as [->|Hne].
    + intros H. apply without_closing_bracket_Some in H as ->. reflexivity.
    + intros H. exfalso. revert H.
      destruct a as [[] [] [] [] [] [] [] []]; try discriminate. congruence.
  - intros ->. change ("[" +:+ w +:+ "]") with (String "[" (w +:+ "]")).
    apply without_closing_bracket_app.
Qed.

(** C7: the correctness reward is 1 when the final submitted guess of the
    transcript is the secret answer, and 0 otherwise. *)
Theorem check_answer_reward_func_correct (P : Parser)
  (completion : list message) (answer : string) :
  (final_guess completion = Some answer →
   check_answer_reward_func completion answer = 1%Q) ∧
  (final_guess completion ≠ Some answer →
   check_answer_reward_func completion answer = 0%Q).
Proof.
  unfold final_guess, check_answer_reward_func.
  destruct (parse_answer completion) as [g|]; cbn [mbind option_bind].
  - split.
    + intros H. apply unbracket_Some in H as ->. by rewrite String.eqb_refl.
    + intros H. destruct (String.eqb_spec g ("[" +:+ answer +:+ "]")) as [->|];
        [|reflexivity].
      exfalso. apply H. by apply unbracket_Some.
  - split; [discriminate|reflexivity].
Qed.

(** C8: the efficiency reward is the correctness reward divided by the
    number of guessing turns plus one, where the guessing turns are the
    assistant turns without a leading welcome turn; the division is
    defined; the reward is 0 when the final guess is not correct, and a
    correct final guess on the second guessing turn after a welcome turn
    gives 1/3 (within 1e-3). *)
Theorem count_turns_reward_func_correct (P : Parser)
  (completion : list message) (answer : string) :
  ∃ r,
    count_turns_reward_func completion answer = Some r ∧
    r = (check_answer_reward_func completion answer
         / inject_Z (Z.of_nat (length (guessing_turns completion)) + 1))%Q ∧
    (check_answer_reward_func completion answer = 0%Q → (r == 0)%Q) ∧
    (∀ first turn1 turn2,
       filter (λ x, role x = "assistant") completion = [first; turn1; turn2] →
       contains welcome (content_or_empty first) = true →
       check_answer_reward_func completion answer = 1%Q →
       (r == 1 # 3)%Q ∧ (Qabs (r - (1 # 3)) < 1 # 1000)%Q).
Proof.
  unfold count_turns_reward_func, guessing_turns.
  set (c := check_answer_reward_func completion answer).
  destruct (filter (λ x, role x = "assistant") completion) as [|m ms] eqn:E.
  - exists (c / inject_Z 1)%Q. split; [reflexivity|]. split; [reflexivity|].
    split; [intros ->; reflexivity|]. intros ? ? ? [=].
  - assert (H0 : (0 <? Z.of_nat (length (m :: ms))) = true)
      by (apply Z.ltb_lt; simpl; lia).
    rewrite H0. cbn [getitem lookup list_lookup mbind option_bind].
    destruct (contains welcome (content_or_empty m)) eqn:Ew.
    + assert (Hn : Z.of_nat (length (m :: ms)) - 1 + 1
                   = Z.of_nat (length ms) + 1) by (simpl length; lia).
      unfold py_div. rewrite Hn.
      destruct (Z.eqb_spec (Z.of_nat (length ms) + 1) 0) as [|_]; [lia|].
      eexists. split; [reflexivity|]. split; [reflexivity|].
      split; [intros ->; reflexivity|].
      intros first turn1 turn2 [= -> ->] _ ->. split; reflexivity.
    + unfold py_div.
      destruct (Z.eqb_spec (Z.of_nat (length (m :: ms)) + 1) 0) as [|_];
        [lia|].
      eexists. split; [reflexivity|]. split; [reflexivity|].
      split; [intros ->; reflexivity|].
      intros first turn1 turn2 [= -> ->] Hw. congruence.
Qed.

(** The failing case of the partial-credit reward: with no message of the
    environment in the transcript, [[-1]] raises [IndexError]. *)
Lemma partial_credit_reward_func_no_user (P : Parser) completion :
  get_user_messages completion = [] →
  partial_credit_reward_func completion = None.
Proof. intros H. unfold partial_credit_reward_func. by rewrite H. Qed.

(** C9: on the transcript of a single assistant turn, which has no
    environment message and so no parseable feedback, the partial-credit
    reward is not 0.0: the function raises [IndexError]. *)
Theorem partial_credit_reward_func_raises :
  @partial_credit_reward_func XMLParser one_turn_transcript = None ∧
  @check_answer_reward_func XMLParser one_turn_transcript "plant" = 1%Q ∧
  @count_turns_reward_func XMLParser one_turn_transcript "plant"
  = Some (1 / inject_Z 2)%Q.
Proof. repeat split. Qed.

(** ** Examples of the specification *)

Example feedback_apple : calculate_hurdle_feedback "apple" "plant" = Some (0, 3).
Proof. reflexivity. Qed.
Example feedback_plant : calculate_hurdle_feedback "plant" "plant" = Some (5, 0).
Proof. reflexivity. Qed.
Example feedback_queen : calculate_hurdle_feedback "queen" "plant" = Some (0, 1).
Proof. reflexivity. Qed.
Example feedback_tnalp : calculate_hurdle_feedback "tnalp" "plant" = Some (1, 4).
Proof. reflexivity. Qed.
Example feedback_level : calculate_hurdle_feedback "level" "plant" = Some (0, 1).
Proof. reflexivity. Qed.
Example feedback_books : calculate_hurdle_feedback "books" "plant" = Some (0, 0).
Proof. reflexivity. Qed.
Example feedback_case : calculate_hurdle_feedback "PlAnT" "pLaNt" = Some (5, 0).
Proof. reflexivity. Qed.
Example feedback_unequal : calculate_hurdle_feedback "plants" "ant" = Some (0, 3).
Proof. reflexivity. Qed.

(** ** The tests of the repository *)

Example test_first_guess_valid :
  ∃ info st,
    step "[crane]" (reset "plant" 5 8) = Some (false, info, st) ∧
    guess_history (game_state st) = [("crane", (2, 0))].
Proof. eexists _, _. split; [vm_compute; reflexivity|reflexivity]. Qed.

Example test_win_condition :
  ∃ info st,
    step "[plant]" (reset "plant" 5 8) = Some (true, info, st) ∧
    reward info = Some 1%Q ∧ reason info = Some win_reason.
Proof. eexists _, _. split; [vm_compute; reflexivity|split; reflexivity]. Qed.

Example test_reaching_8_attempts_without_success :
  ∃ info st,
    step "[wrong]"
      (state_after ["[crane]"; "[audio]"; "[moist]"; "[blink]"; "[grump]";
                    "[sword]"; "[quick]"] (reset "plant" 5 8))
    = Some (true, info, st) ∧
    reward info = Some 0%Q ∧
    reason info = Some "Game over! The word was 'PLANT'.".
Proof. eexists _, _. split; [vm_compute; reflexivity|split; reflexivity]. Qed.

Example test_word_length_violation :
  ∃ info st,
    step "[plants]" (reset "plant" 5 8) = Some (false, info, st) ∧
    reason info = Some "Your word must be exactly 5 letters." ∧
    guess_history (game_state st) = [].
Proof. eexists _, _. split; [vm_compute; reflexivity|split; reflexivity]. Qed.

Example test_count_turns_reward_func :
  @count_turns_reward_func XMLParser win_transcript "plant"
  = Some (1 / inject_Z 3)%Q.
Proof. vm_compute. reflexivity. Qed.

Example test_partial_credit_reward_func :
  @partial_credit_reward_func XMLParser feedback_transcript
  = Some (partial_credit 1 2) ∧ (partial_credit 1 2 == 4 # 10)%Q.
Proof. split; vm_compute; reflexivity. Qed.

Example test_partial_credit_reward_func_no_feedback :
  @partial_credit_reward_func XMLParser no_feedback_transcript = Some 0%Q.
Proof. vm_compute. reflexivity. Qed.

(* ================================================================= *)
(** * Further properties of the code *)

(** ** The scorer counts the common letters *)

Lemma pool_unflagged a : pool a (replicate (length a) false) = a.
Proof. induction a as [|x a IH]; simpl; [reflexivity|]. by rewrite IH. Qed.

Lemma pool_agreed_any a : ∀ b,
  a ≡ₚ pool a (green_marks a b) ++ agreed a b ∧
  b ≡ₚ pool b (green_marks b a) ++ agreed a b.
Proof.
  induction a as [|x a IH]; intros [|y b].
  - split; reflexivity.
  - split; [reflexivity|]. cbn [agreed]. rewrite app_nil_r.
    by rewrite green_marks_nil_r, pool_unflagged.
  - split; [|reflexivity]. cbn [agreed]. rewrite app_nil_r.
    by rewrite green_marks_nil_r, pool_unflagged.
  - destruct (IH b) as [Ha Hb].
    cbn [green_marks pool agreed]. rewrite (Ascii.eqb_sym y x).
    destruct (Ascii.eqb_spec x y) as [->|Hne].
    + split; rewrite <- Permutation_middle; by constructor.
    + split; simpl; by constructor.
Qed.

Lemma marked_agreed a : ∀ b,
  marked (green_marks a b) = Z.of_nat (length (agreed a b)).
Proof.
  induction a as [|x a IH]; intros [|y b]; cbn [green_marks marked agreed];
    try reflexivity.
  - by rewrite green_marks_nil_r, marked_replicate_false.
  - rewrite IH. destruct (Ascii.eqb x y); simpl length; lia.
Qed.

Lemma claim_Some_pool x s : ∀ u u',
  claim x s u = Some u' → pool s u ≡ₚ x :: pool s u'.
Proof.
  induction s as [|y s IH]; intros [|b u] u' H; simpl in H; try discriminate.
  destruct b; cbn [negb andb] in H.
  - destruct (claim x s u) as [u0|] eqn:E; [|discriminate].
    injection H as <-. cbn [pool]. by apply IH.
  - destruct (Ascii.eqb_spec y x) as [->|Hne].
    + injection H as <-. reflexivity.
    + destruct (claim x s u) as [u0|] eqn:E; [|discriminate].
      injection H as <-. cbn [pool]. rewrite (IH u u0 E). apply perm_swap.
Qed.

Lemma claim_None_pool x s : ∀ u, claim x s u = None → x ∉ pool s u.
Proof.
  intros u H Hin. apply list_elem_of_In in Hin.
  destruct (claim_pool x s u Hin) as (u' & Hc & _). congruence.
Qed.

Lemma size_list_to_set_disj (l : list ascii) :
  size (list_to_set_disj l : gmultiset ascii) = length l.
Proof.
  induction l as [|x l IH]; [reflexivity|].
  rewrite list_to_set_disj_cons, gmultiset_size_disj_union,
    gmultiset_size_singleton, IH. reflexivity.
Qed.

Lemma common_cons_both (x : ascii) (A B : gmultiset ascii) :
  ({[+ x +]} ⊎ A) ∩ ({[+ x +]} ⊎ B) = {[+ x +]} ⊎ (A ∩ B).
Proof. multiset_solver. Qed.

Lemma common_cons_absent (x : ascii) (A B : gmultiset ascii) :
  x ∉ B → ({[+ x +]} ⊎ A) ∩ B = A ∩ B.
Proof.
  intros H. apply gmultiset_eq. intros y.
  rewrite !multiplicity_intersection, multiplicity_disj_union.
  destruct (decide (y = x)) as [->|Hne].
  - apply not_elem_of_multiplicity in H. lia.
  - rewrite multiplicity_singleton_ne by done. lia.
Qed.

Lemma common_empty (B : gmultiset ascii) : ∅ ∩ B = ∅.
Proof. multiset_solver. Qed.

Lemma common_shared (A P Q : gmultiset ascii) :
  (P ⊎ A) ∩ (Q ⊎ A) = (P ∩ Q) ⊎ A.
Proof. multiset_solver. Qed.

(** The yellow pass counts the letters the two pools have in common. *)
Lemma yellow_pass_common g : ∀ gu s su,
  length gu = length g →
  (yellow_pass g gu s su).1
  = Z.of_nat (size (list_to_set_disj (pool g gu)
                    ∩ list_to_set_disj (pool s su) : gmultiset ascii)).
Proof.
  induction g as [|x g IH]; intros [|b gu] s su Hl; try discriminate.
  - cbn [yellow_pass pool fst]. rewrite list_to_set_disj_nil.
    rewrite common_empty, gmultiset_size_empty. reflexivity.
  - injection Hl as Hl. cbn [yellow_pass pool]. destruct b.
    + by apply IH.
    + rewrite list_to_set_disj_cons.
      destruct (claim x s su) as [su'|] eqn:E.
      * rewrite (list_to_set_disj_perm _ _ (claim_Some_pool _ _ _ _ E)).
        rewrite list_to_set_disj_cons, common_cons_both.
        rewrite gmultiset_size_disj_union, gmultiset_size_singleton.
        specialize (IH gu s su' Hl).
        destruct (yellow_pass g gu s su'). cbn [fst] in *. lia.
      * rewrite common_cons_absent.
        -- by apply IH.
        -- rewrite elem_of_list_to_set_disj. by apply claim_None_pool.
Qed.

Lemma feedback_pure_common g s :
  (feedback_pure g s).1 + (feedback_pure g s).2
  = Z.of_nat (size (list_to_set_disj g ∩ list_to_set_disj s
                    : gmultiset ascii)).
Proof.
  unfold feedback_pure. cbn [fst snd].
  rewrite yellow_pass_common by apply length_green_marks.
  rewrite marked_agreed.
  destruct (pool_agreed_any g s) as [Hg Hs].
  apply (list_to_set_disj_perm (A:=ascii)) in Hg, Hs.
  rewrite !list_to_set_disj_app in Hg, Hs.
  set (P := list_to_set_disj (pool g (green_marks g s))) in *.
  set (Q := list_to_set_disj (pool s (green_marks s g))) in *.
  rewrite Hg, Hs, common_shared.
  rewrite gmultiset_size_disj_union, size_list_to_set_disj. lia.
Qed.

(** X1: for two words of any lengths, greens + yellows is the number of
    letters the words have in common, counted with multiplicity and
    without regard to case. *)
Theorem calculate_hurdle_feedback_common_letters (guess secret : string) :
  ∃ greens yellows,
    calculate_hurdle_feedback guess secret = Some (greens, yellows) ∧
    greens + yellows = Z.of_nat (size (letters guess ∩ letters secret)).
Proof.
  rewrite calculate_hurdle_feedback_pure.
  pose proof (feedback_pure_common (chars (lower guess)) (chars (lower secret)))
    as H.
  destruct (feedback_pure _ _) as [greens yellows].
  by exists greens, yellows.
Qed.

Lemma feedback_pure_sym g s :
  feedback_pure g s = feedback_pure s g.
Proof.
  unfold feedback_pure. f_equal.
  - apply marked_green_marks_comm.
  - rewrite !yellow_pass_common by apply length_green_marks.
    by rewrite (comm_L (∩)).
Qed.

(** X2: the scorer is symmetric: scoring the guess against the secret
    gives the counts of scoring the secret against the guess. *)
Theorem calculate_hurdle_feedback_symmetric (guess secret : string) :
  calculate_hurdle_feedback guess secret
  = calculate_hurdle_feedback secret guess.
Proof.
  rewrite !calculate_hurdle_feedback_pure. f_equal. apply feedback_pure_sym.
Qed.

(** ** All green means equal *)

Lemma marked_le_length m : marked m ≤ Z.of_nat (length m).
Proof. induction m as [|[] m IH]; simpl length; simpl marked; lia. Qed.

Lemma marked_all_green a : ∀ b, length a = length b →
  (marked (green_marks a b) = Z.of_nat (length a) ↔ a = b).
Proof.
  induction a as [|x a IH]; intros [|y b] Hl; try discriminate.
  - split; reflexivity.
  - injection Hl as Hl. cbn [green_marks marked].
    pose proof (marked_le_length (green_marks a b)) as Hle.
    rewrite length_green_marks in Hle.
    destruct (Ascii.eqb_spec x y) as [->|Hne].
    + split.
      * intros H. f_equal. apply (IH b Hl). simpl length in H. lia.
      * intros [= Hab]. apply (IH b Hl) in Hab. simpl length. lia.
    + simpl length. split; [lia|congruence].
Qed.

Lemma chars_inj s t : chars s = chars t → s = t.
Proof.
  intros H. rewrite <- (string_of_list_ascii_of_string s),
    <- (string_of_list_ascii_of_string t). unfold chars in H. by rewrite H.
Qed.

(** X3: for two words of the same length L, greens = L exactly when the
    words are equal without regard to case, and then yellows = 0: the
    scorer shows all green for the guess that the engine takes as a win,
    and for no other. *)
Theorem calculate_hurdle_feedback_all_green (guess secret : string) :
  len guess = len secret →
  ∃ greens yellows,
    calculate_hurdle_feedback guess secret = Some (greens, yellows) ∧
    (greens = Z.of_nat (len guess) ↔ lower guess = lower secret) ∧
    (lower guess = lower secret → yellows = 0).
Proof.
  intros Hlen. rewrite calculate_hurdle_feedback_pure.
  pose proof (feedback_pure_bounds (chars (lower guess)) (chars (lower secret)))
    as (Hg & Hy & Hle).
  pose proof (marked_all_green (chars (lower guess)) (chars (lower secret)))
    as Hall.
  rewrite <- !len_chars, !len_lower in *. rewrite <- Hlen, Nat.min_id in Hle.
  specialize (Hall Hlen).
  unfold feedback_pure in *. cbn [fst snd] in *.
  eexists _, _. split; [reflexivity|].
  assert (Heq : marked (green_marks (chars (lower guess))
                          (chars (lower secret)))
                = Z.of_nat (len guess) ↔ lower guess = lower secret).
  { rewrite Hall. split; [apply chars_inj|by intros ->]. }
  split; [exact Heq|]. intros H. apply Heq in H. lia.
Qed.

Lemma calculate_hurdle_feedback_all_green_witness :
  ∃ greens yellows,
    calculate_hurdle_feedback "PLANT" "plant" = Some (greens, yellows) ∧
    (greens = Z.of_nat (len "PLANT") ↔ lower "PLANT" = lower "plant") ∧
    (lower "PLANT" = lower "plant" → yellows = 0).
Proof.
  apply (calculate_hurdle_feedback_all_green "PLANT" "plant"). reflexivity.
Defined.

(** X4: the scorer ignores case: two pairs of words that agree once
    lowered get the same counts. *)
Theorem calculate_hurdle_feedback_case_insensitive
  (guess guess' secret secret' : string) :
  lower guess = lower guess' → lower secret = lower secret' →
  calculate_hurdle_feedback guess secret
  = calculate_hurdle_feedback guess' secret'.
Proof.
  intros Hg Hs. rewrite !calculate_hurdle_feedback_pure. by rewrite Hg, Hs.
Qed.

Lemma calculate_hurdle_feedback_case_insensitive_witness :
  calculate_hurdle_feedback "Apple" "PLANT"
  = calculate_hurdle_feedback "aPPLE" "plant".
Proof.
  apply (calculate_hurdle_feedback_case_insensitive
           "Apple" "aPPLE" "PLANT" "plant"); reflexivity.
Defined.

(** ** The engine: what a turn keeps and what it records *)

Lemma step_total st action : is_Some (step action st).
Proof.
  unfold step. destruct (re_search_bracket action) as [w|]; [|by eexists].
  destruct (negb _); [by eexists|].
  rewrite calculate_hurdle_feedback_pure.
  destruct (feedback_pure _ _) as [g y]. cbn [mbind option_bind].
  destruct (String.eqb _ _); [by eexists|].
  destruct (_ >=? _); by eexists.
Qed.

Lemma step_game_state st action is_done info st' :
  step action st = Some (is_done, info, st') →
  secret_word (game_state st') = secret_word (game_state st) ∧
  word_length (game_state st') = word_length (game_state st) ∧
  num_guesses (game_state st') = num_guesses (game_state st) ∧
  (guess_history (game_state st') = guess_history (game_state st) ∨
   ∃ w greens yellows,
     re_search_bracket action = Some w ∧
     Z.of_nat (len w) = word_length (game_state st) ∧
     calculate_hurdle_feedback (lower w) (secret_word (game_state st))
     = Some (greens, yellows) ∧
     guess_history (game_state st')
     = guess_history (game_state st) ++ [(lower w, (greens, yellows))]).
Proof.
  unfold step. destruct (re_search_bracket action) as [w|] eqn:Hs.
  - rewrite len_lower. cbn [game_state add_observation word_length secret_word].
    destruct (Z.eqb_spec (Z.of_nat (len w)) (word_length (game_state st)))
      as [Hl|Hl]; cbn [negb].
    + destruct (calculate_hurdle_feedback (lower w)
                  (secret_word (game_state st))) as [[g y]|] eqn:Hc;
        [|discriminate].
      cbn [mbind option_bind].
      assert (Hrec : ∃ w0 greens yellows,
                 Some w = Some w0 ∧
                 Z.of_nat (len w0) = word_length (game_state st) ∧
                 calculate_hurdle_feedback (lower w0)
                   (secret_word (game_state st)) = Some (greens, yellows) ∧
                 guess_history (game_state st) ++ [(lower w, (g, y))]
                 = guess_history (game_state st)
                   ++ [(lower w0, (greens, yellows))])
        by (by exists w, g, y).
      destruct (String.eqb _ _); [|destruct (_ >=? _)];
        intros [= <- <- <-]; repeat split; by right.
    + intros [= <- <- <-]. repeat split. by left.
  - intros [= <- <- <-]. repeat split. by left.
Qed.

(** X5: a turn never raises and never touches the secret, the word
    length or the number of guesses; the history is append-only: a turn
    leaves it as it is or adds one record at the end, the lowered token
    with the counts the scorer gives for it. *)
Theorem step_appends (st : State) (action : string) :
  ∃ is_done info st',
    step action st = Some (is_done, info, st') ∧
    secret_word (game_state st') = secret_word (game_state st) ∧
    word_length (game_state st') = word_length (game_state st) ∧
    num_guesses (game_state st') = num_guesses (game_state st) ∧
    (guess_history (game_state st') = guess_history (game_state st) ∨
     ∃ w greens yellows,
       re_search_bracket action = Some w ∧
       calculate_hurdle_feedback (lower w) (secret_word (game_state st))
       = Some (greens, yellows) ∧
       guess_history (game_state st')
       = guess_history (game_state st) ++ [(lower w, (greens, yellows))]).
Proof.
  destruct (step_total st action) as [[[d info] st'] Hstep].
  exists d, info, st'. split; [done|].
  destruct (step_game_state _ _ _ _ _ Hstep) as (Hs & Hl & Hn & [Hh|Hh]).
  - repeat split; try done. by left.
  - destruct Hh as (w & g & y & Hw & _ & Hc & Hh).
    repeat split; try done. right. by exists w, g, y.
Qed.

(** X6: in every state an episode can reach from reset, whatever is
    submitted, the secret and the sizes are those of reset, and every
    record of the history holds a lower-case word of length L with the
    counts of the scorer for it against the secret, which are not negative
    and sum to at most L. *)
Theorem reachable_history_scored (secret : string) (L M : Z) (st : State) :
  reachable (reset secret L M) st →
  secret_word (game_state st) = secret ∧
  word_length (game_state st) = L ∧
  num_guesses (game_state st) = M ∧
  Forall (λ r : string * (Z * Z),
            lower r.1 = r.1 ∧ Z.of_nat (len r.1) = L ∧
            calculate_hurdle_feedback r.1 secret = Some r.2 ∧
            0 ≤ r.2.1 ∧ 0 ≤ r.2.2 ∧ r.2.1 + r.2.2 ≤ L)
    (guess_history (game_state st)).
Proof.
  intros Hr. induction Hr as [|st action d info st' Hr IH Hstep].
  - repeat split. constructor.
  - destruct IH as (Hs & Hl & Hn & Hall).
    destruct (step_game_state _ _ _ _ _ Hstep) as (Hs' & Hl' & Hn' & Hh).
    rewrite Hs', Hl', Hn', Hs, Hl, Hn. repeat split.
    destruct Hh as [->|(w & g & y & Hw & Hlen & Hc & ->)]; [done|].
    apply Forall_app. split; [done|]. constructor; [|constructor].
    cbn [fst snd]. rewrite Hs in Hc.
    destruct (calculate_hurdle_feedback_range _ _ _ _ Hc) as (Hg & Hy & Hle).
    rewrite !len_lower in *. rewrite lower_idem.
    repeat split; try done; lia.
Qed.

Lemma reachable_history_scored_witness :
  secret_word (game_state (state_after ["[crane]"; "oops"; "[PLANT]"]
                             (reset "plant" 5 8))) = "plant" ∧
  word_length (game_state (state_after ["[crane]"; "oops"; "[PLANT]"]
                             (reset "plant" 5 8))) = 5 ∧
  num_guesses (game_state (state_after ["[crane]"; "oops"; "[PLANT]"]
                             (reset "plant" 5 8))) = 8 ∧
  Forall (λ r : string * (Z * Z),
            lower r.1 = r.1 ∧ Z.of_nat (len r.1) = 5 ∧
            calculate_hurdle_feedback r.1 "plant" = Some r.2 ∧
            0 ≤ r.2.1 ∧ 0 ≤ r.2.2 ∧ r.2.1 + r.2.2 ≤ 5)
    (guess_history (game_state (state_after ["[crane]"; "oops"; "[PLANT]"]
                                  (reset "plant" 5 8)))).
Proof.
  apply (reachable_history_scored "plant" 5 8).
  apply (reachable_run _ ["[crane]"; "oops"; "[PLANT]"] (reset "plant" 5 8));
    [apply reachable_init|].
  vm_compute. reflexivity.
Defined.

(** ** The engine: the winning record and the reward of a wrong guess *)

Lemma feedback_pure_equal a : feedback_pure a a = (Z.of_nat (length a), 0).
Proof.
  pose proof (feedback_pure_bounds a a) as (_ & Hy & Hle).
  pose proof (proj2 (marked_all_green a a eq_refl) eq_refl) as Hg.
  unfold feedback_pure in *. cbn [fst snd] in *.
  rewrite Nat.min_id in Hle. f_equal; [done|lia].
Qed.

(** X7: the turn that wins records all green: the record appended to the
    history is the lowered word with the counts (L, 0), and the message of
    the turn is the feedback text with these counts followed by the
    congratulation. *)
Theorem step_win_record (st : State) (action w : string) :
  re_search_bracket action = Some w →
  Z.of_nat (len w) = word_length (game_state st) →
  lower w = lower (secret_word (game_state st)) →
  ∃ info st',
    step action st = Some (true, info, st') ∧
    guess_history (game_state st')
    = guess_history (game_state st)
      ++ [(lower w, (word_length (game_state st), 0))] ∧
    last (observations st')
    = Some (GAME_MESSAGE,
            feedback_text (lower w) (word_length (game_state st)) 0
            +:+ nl +:+ win_reason).
Proof.
  intros Hs Hl Hw. unfold step. rewrite Hs, len_lower.
  cbn [game_state add_observation secret_word word_length].
  rewrite Hl, Z.eqb_refl. cbn [negb].
  rewrite calculate_hurdle_feedback_pure, lower_idem, Hw, feedback_pure_equal.
  rewrite <- len_chars, <- Hw, len_lower, Hl.
  cbn [mbind option_bind]. rewrite String.eqb_refl.
  eexists _, _. split; [reflexivity|]. split; [reflexivity|].
  cbn [state_step set_outcome observations add_observation append_history].
  by rewrite last_snoc.
Qed.

Lemma step_win_record_witness :
  ∃ info st',
    step "[Plant]" (reset "plant" 5 8) = Some (true, info, st') ∧
    guess_history (game_state st')
    = guess_history (game_state (reset "plant" 5 8))
      ++ [(lower "Plant", (word_length (game_state (reset "plant" 5 8)), 0))] ∧
    last (observations st')
    = Some (GAME_MESSAGE,
            feedback_text (lower "Plant")
              (word_length (game_state (reset "plant" 5 8))) 0
            +:+ nl +:+ win_reason).
Proof.
  apply (step_win_record (reset "plant" 5 8) "[Plant]" "Plant"); reflexivity.
Defined.

Lemma calculate_hurdle_feedback_some_miss guess secret greens yellows :
  len guess = len secret → lower guess ≠ lower secret →
  calculate_hurdle_feedback guess secret = Some (greens, yellows) →
  0 ≤ greens ∧ 0 ≤ yellows ∧ greens + 1 ≤ Z.of_nat (len guess) ∧
  greens + yellows ≤ Z.of_nat (len guess).
Proof.
  intros Hlen Hne Hc.
  destruct (calculate_hurdle_feedback_range _ _ _ _ Hc) as (Hg & Hy & Hle).
  rewrite <- Hlen, Nat.min_id in Hle.
  rewrite calculate_hurdle_feedback_pure in Hc. unfold feedback_pure in Hc.
  injection Hc as Hgreens _.
  pose proof (marked_le_length
                (green_marks (chars (lower guess)) (chars (lower secret))))
    as Hmax.
  pose proof (marked_all_green (chars (lower guess)) (chars (lower secret)))
    as Hall.
  rewrite length_green_marks, <- !len_chars, !len_lower in *.
  specialize (Hall Hlen). rewrite Hgreens in *.
  repeat split; try done.
  destruct (decide (greens = Z.of_nat (len guess))) as [Heq|]; [|lia].
  exfalso. apply Hne. apply chars_inj. by apply Hall.
Qed.

(** X8: a wrong guess never earns as much as a win when L ≤ 5: with a
    secret of length L, the reward of a turn that continues the game is at
    most (2 L - 1) / 10. *)
Theorem step_continue_reward_below_win (st : State) (action w : string)
  (is_done : bool) (info : Info) (st' : State) :
  re_search_bracket action = Some w →
  Z.of_nat (len w) = word_length (game_state st) →
  Z.of_nat (len (secret_word (game_state st))) = word_length (game_state st) →
  lower w ≠ lower (secret_word (game_state st)) →
  Z.of_nat (length (guess_history (game_state st))) + 1
    < num_guesses (game_state st) →
  step action st = Some (is_done, info, st') →
  ∃ r, reward info = Some r ∧
       (r <= (2 * word_length (game_state st) - 1) # 10)%Q ∧
       (word_length (game_state st) ≤ 5 → (r < 1)%Q).
Proof.
  intros Hs Hl Hsec Hw Hm Hstep.
  destruct (step_continue st action w Hs Hl Hw Hm)
    as (g & y & info0 & st0 & Hc & Hstep0 & Hr & _).
  rewrite Hstep in Hstep0. injection Hstep0 as -> -> ->.
  exists (partial_credit g y). split; [done|].
  destruct (calculate_hurdle_feedback_some_miss (lower w)
              (secret_word (game_state st)) g y) as (Hg & Hy & Hg1 & Hle).
  - rewrite len_lower. lia.
  - by rewrite lower_idem.
  - done.
  - rewrite len_lower in *.
    unfold partial_credit, Qle, Qlt, Qplus, Qmult, inject_Z.
    cbn [Qnum Qden]. split; [lia|]. intros H5. lia.
Qed.

Lemma step_continue_reward_below_win_witness :
  ∃ r, reward (set_reward (partial_credit 2 0)
                 (set_latest_observation (feedback_text "crane" 2 0)
                    empty_info)) = Some r ∧
       (r <= (2 * word_length (game_state (reset "plant" 5 8)) - 1) # 10)%Q ∧
       (word_length (game_state (reset "plant" 5 8)) ≤ 5 → (r < 1)%Q).
Proof.
  apply (step_continue_reward_below_win (reset "plant" 5 8) "[crane]" "crane"
           false _
           (state_after ["[crane]"] (reset "plant" 5 8)));
    [reflexivity|reflexivity|reflexivity|discriminate|reflexivity|].
  vm_compute. reflexivity.
Defined.

(** ** The engine: which token is taken *)

Lemma match_bracket_head s :
  is_Some (match_bracket s) → ∃ rest, s = String "[" rest.
Proof.
  destruct s as [|a s]; [by intros [? [=]]|].
  destruct (Ascii.eqb_spec a "[") as [->|Hne]; [by eexists|].
  intros [w H]. exfalso. revert H. unfold match_bracket.
  destruct a as [[] [] [] [] [] [] [] []]; try discriminate. congruence.
Qed.

Lemma re_search_bracket_skip pre : ∀ s,
  all_chars (λ c, negb (Ascii.eqb c "[")) pre →
  re_search_bracket (pre +:+ s) = re_search_bracket s.
Proof.
  induction pre as [|a pre IH]; intros s Hall; [reflexivity|].
  inversion Hall as [|? ? Ha Hall']; subst.
  rewrite string_app_cons, re_search_bracket_cons.
  destruct (match_bracket (String a (pre +:+ s))) as [w|] eqn:E.
  - destruct (match_bracket_head (String a (pre +:+ s))) as [rest Hr];
      [by eexists|].
    injection Hr as -> _. discriminate.
  - by apply IH.
Qed.

(** X9: the token of a submission is the first bracketed word: after any
    text without an opening bracket, [[w]] with w a non-empty run of word
    characters is what the search extracts, whatever follows; and when w
    has length L the turn is scored and recorded, whatever word it is. *)
Theorem step_takes_first_token (st : State) (pre w post : string) :
  all_chars (λ c, negb (Ascii.eqb c "[")) pre →
  w ≠ EmptyString → all_chars is_word w →
  re_search_bracket (pre +:+ "[" +:+ w +:+ "]" +:+ post) = Some w ∧
  (Z.of_nat (len w) = word_length (game_state st) →
   ∃ is_done info st' greens yellows,
     step (pre +:+ "[" +:+ w +:+ "]" +:+ post) st
     = Some (is_done, info, st') ∧
     guess_history (game_state st')
     = guess_history (game_state st) ++ [(lower w, (greens, yellows))]).
Proof.
  intros Hpre Hw Hall.
  assert (Hs : re_search_bracket (pre +:+ "[" +:+ w +:+ "]" +:+ post)
               = Some w).
  { rewrite re_search_bracket_skip by done.
    pose proof (match_bracket_token w post Hw Hall) as Hm.
    change ("[" +:+ w +:+ "]" +:+ post)
      with (String "[" (w +:+ "]" +:+ post)) in *.
    by rewrite re_search_bracket_cons, Hm. }
  split; [done|]. intros Hl.
  destruct (step_total st (pre +:+ "[" +:+ w +:+ "]" +:+ post))
    as [[[d info] st'] Hstep].
  exists d, info, st'.
  destruct (step_game_state _ _ _ _ _ Hstep) as (_ & _ & _ & Hh).
  destruct (decide (lower w = lower (secret_word (game_state st)))) as [He|He].
  - destruct (step_win st _ w Hs Hl He)
      as (g & y & info0 & st0 & _ & Hstep0 & _ & _ & _ & _ & Hh0 & _).
    rewrite Hstep in Hstep0. injection Hstep0 as -> -> ->. by exists g, y.
  - destruct (decide (Z.of_nat (length (guess_history (game_state st))) + 1
                      < num_guesses (game_state st))) as [Hm|Hm].
    + destruct (step_continue st _ w Hs Hl He Hm)
        as (g & y & info0 & st0 & _ & Hstep0 & _ & _ & _ & _ & _ & Hh0 & _).
      rewrite Hstep in Hstep0. injection Hstep0 as -> -> ->. by exists g, y.
    + destruct (step_lose st _ w Hs Hl He)
        as (g & y & info0 & st0 & _ & Hstep0 & _ & _ & _ & _ & Hh0 & _);
        [lia|].
      rewrite Hstep in Hstep0. injection Hstep0 as -> -> ->. by exists g, y.
Qed.

Lemma step_takes_first_token_witness :
  re_search_bracket ("my guess: " +:+ "[" +:+ "zzzzz" +:+ "]" +:+ " or [plant]")
  = Some "zzzzz" ∧
  (Z.of_nat (len "zzzzz") = word_length (game_state (reset "plant" 5 8)) →
   ∃ is_done info st' greens yellows,
     step ("my guess: " +:+ "[" +:+ "zzzzz" +:+ "]" +:+ " or [plant]")
       (reset "plant" 5 8)
     = Some (is_done, info, st') ∧
     guess_history (game_state st')
     = guess_history (game_state (reset "plant" 5 8))
       ++ [(lower "zzzzz", (greens, yellows))]).
Proof.
  apply (step_takes_first_token (reset "plant" 5 8)
           "my guess: " "zzzzz" " or [plant]").
  - repeat constructor.
  - discriminate.
  - repeat constructor.
Defined.

(** ** Substrings and the split at the marker *)

Lemma prefix_spec a : ∀ b, String.prefix a b = true ↔ ∃ t, b = a +:+ t.
Proof.
  induction a as [|x a IH]; intros b.
  - split; [intros _; by exists b|intros _; by destruct b].
  - destruct b as [|y b]; simpl.
    + split; [discriminate|intros [t Ht]; discriminate].
    + destruct (ascii_dec x y) as [->|Hne].
      * rewrite IH. split; intros [t Ht]; exists t.
        -- by rewrite string_app_cons, Ht.
        -- rewrite string_app_cons in Ht. by injection Ht.
      * split; [discriminate|]. intros [t Ht].
        rewrite string_app_cons in Ht. injection Ht as Hxy _. congruence.
Qed.

Lemma contains_cons sub c s :
  contains sub (String c s)
  = (String.prefix sub (String c s) || contains sub s).
Proof. cbn [contains]. by destruct (String.prefix sub (String c s)). Qed.

Lemma contains_nil sub : contains sub "" = String.prefix sub "".
Proof. cbn [contains]. by destruct (String.prefix sub ""). Qed.

Lemma contains_spec sub s : contains sub s = true ↔ occurs_in sub s.
Proof.
  induction s as [|c s IH].
  - rewrite contains_nil, prefix_spec. split.
    + intros [t Ht]. exists "", t. by rewrite string_app_nil_l.
    + intros (pre & post & H). destruct pre; [|discriminate].
      rewrite string_app_nil_l in H. by exists post.
  - rewrite contains_cons, orb_true_iff, IH, prefix_spec. split.
    + intros [[t Ht]|(pre & post & ->)].
      * exists "", t. by rewrite string_app_nil_l.
      * exists (String c pre), post. by rewrite string_app_cons.
    + intros (pre & post & H). destruct pre as [|a pre].
      * left. exists post. by rewrite string_app_nil_l in H.
      * right. rewrite string_app_cons in H. injection H as -> ->.
        by exists pre, post.
Qed.

Lemma contains_false_occurs sub s :
  contains sub s = false ↔ ¬ occurs_in sub s.
Proof.
  rewrite <- contains_spec. destruct (contains sub s); split; try done.
Qed.

Lemma drop_string_app a t : drop_string (len a) (a +:+ t) = t.
Proof.
  induction a as [|x a IH]; [by destruct t|].
  rewrite string_app_cons. simpl. apply IH.
Qed.

Lemma split_last_from_pass sep a : ∀ t acc,
  split_last_from sep (a +:+ t) (len a) acc = split_last_from sep t 0 acc.
Proof.
  induction a as [|x a IH]; intros t acc; [reflexivity|].
  rewrite string_app_cons. cbn [len String.length split_last_from].
  apply IH.
Qed.

(** Where the scan of [split] ends: the last piece holds no separator,
    and is either the whole text, which then holds no separator, or what
    follows a separator. *)
Lemma split_last_from_spec sep x sep' :
  sep = String x sep' → ∀ n t pre,
  (len t ≤ n)%nat →
  contains sep (pre +:+ t) = contains sep t →
  contains sep (split_last_from sep t 0 (pre +:+ t)) = false ∧
  ((split_last_from sep t 0 (pre +:+ t) = pre +:+ t ∧ contains sep t = false)
   ∨ ∃ p, t = p +:+ sep +:+ split_last_from sep t 0 (pre +:+ t)).
Proof.
  intros Hsep. induction n as [|n IH]; intros t pre Hn Hinv.
  - destruct t; [|simpl in Hn; lia].
    cbn [split_last_from]. rewrite Hinv, contains_nil, Hsep.
    split; [reflexivity|]. left. split; reflexivity.
  - destruct t as [|c t].
    + cbn [split_last_from]. rewrite Hinv, contains_nil, Hsep.
      split; [reflexivity|]. left. split; reflexivity.
    + cbn [split_last_from].
      destruct (String.prefix sep (String c t)) eqn:Hp.
      * apply prefix_spec in Hp as [u Hu].
        assert (Hk : (len sep - 1)%nat = len sep')
          by (rewrite Hsep; simpl; lia).
        assert (Ht : t = sep' +:+ u).
        { rewrite Hsep, string_app_cons in Hu. by injection Hu. }
        assert (Hlen : (len u ≤ n)%nat).
        { pose proof (len_app sep' u) as Hlu. rewrite <- Ht in Hlu.
          unfold len in *. simpl in Hn. lia. }
        rewrite Hu, drop_string_app, Hk, Ht, split_last_from_pass.
        destruct (IH u "" Hlen) as [Hfree Hcase];
          [by rewrite string_app_nil_l|].
        rewrite string_app_nil_l in Hfree, Hcase. split; [done|]. right.
        destruct Hcase as [[Hr _]|[p Hp]].
        -- exists "". by rewrite Hr, string_app_nil_l.
        -- exists (sep +:+ p). rewrite string_app_assoc. f_equal. exact Hp.
      * rewrite contains_cons, Hp in Hinv. cbn [orb] in Hinv.
        replace (pre +:+ String c t) with ((pre +:+ String c "") +:+ t) in *
          by (by rewrite string_app_assoc).
        destruct (IH t (pre +:+ String c "")) as [Hfree Hcase];
          [simpl in Hn; lia|done|].
        split; [done|].
        destruct Hcase as [[Hr Hc]|[p Hp']].
        -- left. split; [done|]. by rewrite contains_cons, Hp, Hc.
        -- right. exists (String c p). by rewrite string_app_cons, <- Hp'.
Qed.

Lemma split_last_spec sep x sep' s :
  sep = String x sep' →
  contains sep (split_last sep s) = false ∧
  ((split_last sep s = s ∧ contains sep s = false)
   ∨ ∃ p, s = p +:+ sep +:+ split_last sep s).
Proof.
  intros Hsep. unfold split_last.
  pose proof (split_last_from_spec sep x sep' Hsep (len s) s "" (le_n _))
    as H.
  rewrite string_app_nil_l in H. by apply H.
Qed.

(** X10: the feedback function returns a text without the marker
    "Feedback:": the observation itself when it has no marker, and
    otherwise the part of the observation that follows a marker. *)
Theorem hurdle_wordle_feedback_fn_after_marker (observation : string) :
  contains "Feedback:" (hurdle_wordle_feedback_fn observation) = false ∧
  (contains "Feedback:" observation = false →
   hurdle_wordle_feedback_fn observation = observation) ∧
  (contains "Feedback:" observation = true →
   ∃ before,
     observation
     = before +:+ "Feedback:" +:+ hurdle_wordle_feedback_fn observation).
Proof.
  unfold hurdle_wordle_feedback_fn.
  destruct (split_last_spec "Feedback:" "F" "eedback:" observation eq_refl)
    as [Hfree Hcase].
  destruct (contains "Feedback:" observation) eqn:Hc.
  - split; [done|]. split; [discriminate|]. intros _.
    destruct Hcase as [[_ ?]|Hp]; [discriminate|done].
  - split; [done|]. split; [done|discriminate].
Qed.

(** ** Texts without the marker *)

Lemma lstrip_suffix s : ∃ ws, s = ws +:+ lstrip s.
Proof.
  induction s as [|c s [ws IH]]; [by exists ""|]. cbn [lstrip].
  destruct (is_space c).
  - exists (String c ws). by rewrite string_app_cons, <- IH.
  - by exists "".
Qed.

Lemma rstrip_prefix s : ∃ ws, s = rstrip s +:+ ws.
Proof.
  induction s as [|c s [ws IH]]; [by exists ""|]. cbn [rstrip].
  destruct (rstrip s) as [|c' r] eqn:E.
  - destruct (is_space c).
    + by exists (String c s).
    + exists ws. rewrite string_app_cons. f_equal.
      by rewrite string_app_nil_l in IH.
  - exists ws. rewrite string_app_cons. by f_equal.
Qed.

Lemma occurs_in_strip sub s : occurs_in sub (strip s) → occurs_in sub s.
Proof.
  unfold strip. intros (pre & post & H).
  destruct (lstrip_suffix s) as [ws1 H1].
  destruct (rstrip_prefix (lstrip s)) as [ws2 H2].
  exists (ws1 +:+ pre), (post +:+ ws2).
  rewrite H1 at 1. rewrite H2 at 1. rewrite H.
  by rewrite !string_app_assoc.
Qed.

Lemma contains_strip_false sub s :
  contains sub s = false → contains sub (strip s) = false.
Proof.
  rewrite !contains_false_occurs. intros H Ho. by apply H, occurs_in_strip.
Qed.

Lemma partial_credit_reward_func_no_marker (P : Parser) completion m text :
  getitem_last (get_user_messages completion) = Some m →
  content m = Some text →
  contains "Feedback:" text = false →
  partial_credit_reward_func completion = Some 0%Q.
Proof.
  intros Hm Hc Hn. unfold partial_credit_reward_func.
  rewrite Hm. cbn [mbind option_bind]. rewrite Hc. cbn [mbind option_bind].
  by rewrite (contains_strip_false _ _ Hn).
Qed.

(** X11: the partial-credit reward of a transcript whose last environment
    message is an output of the feedback function is 0.0, whatever the
    observation was: the feedback function removes the marker that the
    reward function looks for. *)
Theorem partial_credit_reward_func_after_feedback_fn (P : Parser)
  (completion : list message) (m : message) (observation : string) :
  getitem_last (get_user_messages completion) = Some m →
  content m = Some (hurdle_wordle_feedback_fn observation) →
  partial_credit_reward_func completion = Some 0%Q.
Proof.
  intros Hm Hc.
  apply (partial_credit_reward_func_no_marker P completion m _ Hm Hc).
  unfold hurdle_wordle_feedback_fn.
  destruct (contains "Feedback:" observation) eqn:E; [|done].
  by destruct (split_last_spec "Feedback:" "F" "eedback:" observation eq_refl).
Qed.

Lemma partial_credit_reward_func_after_feedback_fn_witness :
  @partial_credit_reward_func XMLParser
    (ends_with_user (hurdle_wordle_feedback_fn (feedback_text "crane" 2 0)))
  = Some 0%Q.
Proof.
  apply (partial_credit_reward_func_after_feedback_fn XMLParser _
           {| role := "user";
              content := Some (hurdle_wordle_feedback_fn
                                 (feedback_text "crane" 2 0)) |}
           (feedback_text "crane" 2 0)); reflexivity.
Defined.

Lemma marker_head a s :
  String.prefix "Feedback:" (String a s) = true →
  a = "F"%char ∧ ∃ s', s = String "e" s'.
Proof.
  intros H. apply prefix_spec in H as [t Ht].
  change ("Feedback:" +:+ t) with (String "F" (String "e" ("edback:" +:+ t)))
    in Ht.
  injection Ht as -> ->. split; [done|by eexists].
Qed.

Lemma fe_free_cons a b s :
  fe_free (String a (String b s))
  = negb (Ascii.eqb a "F" && Ascii.eqb b "e") && fe_free (String b s).
Proof. reflexivity. Qed.

Lemma fe_free_tail a s : fe_free (String a s) = true → fe_free s = true.
Proof.
  destruct s as [|b s]; [done|]. rewrite fe_free_cons.
  by intros [_ ?]%andb_true_iff.
Qed.

Lemma fe_free_no_marker s :
  fe_free s = true → contains "Feedback:" s = false.
Proof.
  induction s as [|a s IH]; intros H; [reflexivity|].
  rewrite contains_cons, (IH (fe_free_tail _ _ H)), orb_false_r.
  destruct (String.prefix "Feedback:" (String a s)) eqn:E; [|done].
  apply marker_head in E as [-> [s' ->]]. rewrite fe_free_cons in H.
  by rewrite !Ascii.eqb_refl in H.
Qed.

Lemma not_e_fe_free s : all_chars not_e s → fe_free s = true.
Proof.
  induction s as [|a s IH]; intros H; [reflexivity|].
  inversion H as [|? ? Ha Hs]; subst. destruct s as [|b s]; [reflexivity|].
  rewrite fe_free_cons, (IH Hs), andb_true_r.
  inversion Hs as [|? ? Hb _]; subst. unfold not_e in Hb.
  destruct (Ascii.eqb b "e"); [discriminate|]. by rewrite andb_false_r.
Qed.

Lemma not_e_head s : all_chars not_e s → head_not_e s.
Proof.
  destruct s as [|a s]; [done|]. intros H. inversion H as [|? ? Ha _]; subst.
  unfold not_e in Ha. simpl. intros ->. by rewrite Ascii.eqb_refl in Ha.
Qed.

Lemma fe_free_app a : ∀ b,
  fe_free a = true → fe_free b = true → head_not_e b →
  fe_free (a +:+ b) = true.
Proof.
  induction a as [|x a IH]; intros b Ha Hb Hh; [done|].
  rewrite string_app_cons.
  pose proof (IH b (fe_free_tail _ _ Ha) Hb Hh) as Hrec.
  destruct a as [|y a].
  - rewrite string_app_nil_l in *. destruct b as [|c b]; [done|].
    rewrite fe_free_cons, Hb, andb_true_r. simpl in Hh.
    destruct (Ascii.eqb_spec c "e"); [contradiction|].
    by rewrite andb_false_r.
  - rewrite string_app_cons in *. rewrite fe_free_cons in *.
    apply andb_true_iff in Ha as [Hxy _]. by rewrite Hxy, Hrec.
Qed.

Lemma head_not_e_app a b :
  all_chars not_e a → head_not_e b → head_not_e (a +:+ b).
Proof.
  destruct a as [|x a]; [done|]. intros Ha _. rewrite string_app_cons.
  by apply (not_e_head (String x a)).
Qed.

Lemma all_chars_app p a b :
  all_chars p a → all_chars p b → all_chars p (a +:+ b).
Proof.
  unfold all_chars. rewrite chars_app. intros. by apply Forall_app.
Qed.

Lemma upper_not_e s : all_chars not_e (upper s).
Proof.
  induction s as [|c s IH]; [constructor|]. constructor; [|exact IH].
  destruct c as [[] [] [] [] [] [] [] []]; reflexivity.
Qed.

(** The decimal text of an integer: digits, after a minus sign when it is
    negative. *)
Lemma string_of_uint_digits d : all_chars is_digit (NilEmpty.string_of_uint d).
Proof. induction d; simpl; constructor; done. Qed.

Lemma is_digit_not_e c : is_digit c = true → not_e c = true.
Proof. destruct c as [[] [] [] [] [] [] [] []]; done. Qed.

Lemma is_digit_not_y c : is_digit c = true → not_y c = true.
Proof. destruct c as [[] [] [] [] [] [] [] []]; done. Qed.

Lemma is_digit_not_space c : is_digit c = true → not_space c = true.
Proof. destruct c as [[] [] [] [] [] [] [] []]; done. Qed.

Lemma all_chars_impl (p q : ascii → bool) s :
  (∀ c, p c = true → q c = true) → all_chars p s → all_chars q s.
Proof. intros H Hp. unfold all_chars in *. by eapply Forall_impl. Qed.

Lemma str_of_Z_not_e n : all_chars not_e (str_of_Z n).
Proof.
  unfold str_of_Z. destruct (Z.to_int n) as [d|d]; simpl.
  - apply (all_chars_impl is_digit); [apply is_digit_not_e|].
    apply string_of_uint_digits.
  - constructor; [done|].
    apply (all_chars_impl is_digit); [apply is_digit_not_e|].
    apply string_of_uint_digits.
Qed.

Lemma fe_free_pieces a b :
  fe_free a = true → all_chars not_e b → ∀ c,
  fe_free c = true → head_not_e c →
  fe_free (a +:+ b +:+ c) = true.
Proof.
  intros Ha Hb c Hc Hh. apply fe_free_app; [done| |].
  - apply fe_free_app; [by apply not_e_fe_free|done|done].
  - by apply head_not_e_app.
Qed.

(** X12: the partial-credit reward is 0.0 on the texts the engine gives as
    reasons: the wrong-format reason, the reason that names the length,
    the congratulation and the game-over text with any secret. *)
Theorem partial_credit_reward_func_reasons (P : Parser)
  (completion : list message) (m : message) (text : string) (L : Z)
  (secret : string) :
  getitem_last (get_user_messages completion) = Some m →
  content m = Some text →
  text = wrong_format_reason ∨ text = length_reason L ∨
  text = win_reason ∨ text = lose_reason secret →
  partial_credit_reward_func completion = Some 0%Q.
Proof.
  intros Hm Hc Ht.
  apply (partial_credit_reward_func_no_marker P completion m text Hm Hc).
  apply fe_free_no_marker.
  destruct Ht as [ -> | [ -> | [ -> | -> ] ] ]; try reflexivity.
  - unfold length_reason.
    apply fe_free_pieces; [reflexivity|apply str_of_Z_not_e|reflexivity|done].
  - unfold lose_reason.
    apply fe_free_pieces; [reflexivity|apply upper_not_e|reflexivity|done].
Qed.

Lemma partial_credit_reward_func_reasons_witness :
  @partial_credit_reward_func XMLParser (ends_with_user (lose_reason "plant"))
  = Some 0%Q.
Proof.
  apply (partial_credit_reward_func_reasons XMLParser _
           {| role := "user"; content := Some (lose_reason "plant") |}
           (lose_reason "plant") 5 "plant");
    [reflexivity|reflexivity|]. right. right. by right.
Defined.

(** ** Reading back the counts of a feedback message *)

Lemma int_of_digits_from_pos d : ∀ acc : positive,
  int_of_digits_from (Z.pos acc) (NilEmpty.string_of_uint d)
  = Z.pos (Pos.of_uint_acc d acc).
Proof.
  induction d; intros acc; cbn [NilEmpty.string_of_uint int_of_digits_from
                                 Pos.of_uint_acc];
    try reflexivity; rewrite <- IHd; f_equal; unfold digit_value; simpl; lia.
Qed.

Lemma int_of_digits_uint d :
  int_of_digits (NilEmpty.string_of_uint d) = Z.of_uint d.
Proof.
  unfold int_of_digits, Z.of_uint.
  induction d; cbn [NilEmpty.string_of_uint int_of_digits_from Pos.of_uint];
    try reflexivity;
    match goal with
    | |- int_of_digits_from ?a _ = _ =>
        let v := eval vm_compute in a in change a with v
    end;
    [exact IHd|rewrite int_of_digits_from_pos; reflexivity ..].
Qed.

(** The decimal text of an integer that is not negative is a non-empty
    run of digits, and [int] reads the integer back from it. *)
Lemma str_of_Z_digits n :
  0 ≤ n →
  ∃ c d, str_of_Z n = String c d ∧ all_chars is_digit (String c d) ∧
         int_of_digits (String c d) = n.
Proof.
  intros Hn. unfold str_of_Z.
  pose proof (DecimalZ.of_to n) as Hrt.
  destruct (Z.to_int n) as [d|d] eqn:E.
  - cbn [NilEmpty.string_of_int]. cbn [Z.of_int] in Hrt.
    pose proof (string_of_uint_digits d) as Hd.
    pose proof (int_of_digits_uint d) as Hi. rewrite Hrt in Hi.
    destruct (NilEmpty.string_of_uint d) as [|c s] eqn:Es.
    + destruct d; try discriminate. destruct n; try discriminate; try lia.
    + by exists c, s.
  - destruct n; try discriminate. lia.
Qed.

Lemma split_last_from_none sep t : ∀ acc,
  contains sep t = false → split_last_from sep t 0 acc = acc.
Proof.
  induction t as [|c t IH]; intros acc H; [reflexivity|].
  rewrite contains_cons in H. apply orb_false_iff in H as [Hp Hc].
  cbn [split_last_from]. rewrite Hp. by apply IH.
Qed.

Lemma split_last_from_marker_free p : ∀ r acc,
  fe_free p = true →
  split_last_from "Feedback:" (p +:+ "Feedback:" +:+ r) 0 acc
  = split_last_from "Feedback:" ("Feedback:" +:+ r) 0 acc.
Proof.
  induction p as [|a p IH]; intros r acc H; [reflexivity|].
  rewrite string_app_cons. cbn [split_last_from].
  destruct (String.prefix "Feedback:" (String a (p +:+ "Feedback:" +:+ r)))
    eqn:E.
  - exfalso. apply marker_head in E as [-> [s' Hs']].
    destruct p as [|b p].
    + rewrite string_app_nil_l in Hs'. discriminate.
    + rewrite string_app_cons in Hs'. injection Hs' as -> _.
      rewrite fe_free_cons in H. by rewrite !Ascii.eqb_refl in H.
  - apply IH. by apply (fe_free_tail a).
Qed.

(** The last piece of a text with one marker after a marker-free start. *)
Lemma split_last_marker p r :
  fe_free p = true → fe_free r = true →
  split_last "Feedback:" (p +:+ "Feedback:" +:+ r) = r.
Proof.
  intros Hp Hr. unfold split_last. rewrite split_last_from_marker_free by done.
  change ("Feedback:" +:+ r) with (String "F" ("eedback:" +:+ r)).
  cbn [split_last_from].
  change (String.prefix "Feedback:" (String "F" ("eedback:" +:+ r)))
    with (String.prefix "" r).
  assert (String.prefix "" r = true) as -> by (by destruct r).
  change (len "Feedback:" - 1)%nat with (len "eedback:").
  rewrite split_last_from_pass.
  change (drop_string (len "Feedback:") (String "F" ("eedback:" +:+ r)))
    with (drop_string (len "eedback:") ("eedback:" +:+ r)).
  rewrite drop_string_app.
  apply split_last_from_none. by apply fe_free_no_marker.
Qed.

Lemma rstrip_keep a : ∀ b,
  rstrip b = b → b ≠ EmptyString → rstrip (a +:+ b) = a +:+ b.
Proof.
  induction a as [|x a IH]; intros b Hb Hne; [done|].
  rewrite string_app_cons. cbn [rstrip]. rewrite (IH b Hb Hne).
  destruct (a +:+ b) eqn:E; [|done].
  destruct a; [|discriminate]. rewrite string_app_nil_l in E. contradiction.
Qed.

Lemma rstrip_not_space s : all_chars not_space s → rstrip s = s.
Proof.
  induction s as [|c s IH]; intros H; [reflexivity|].
  inversion H as [|? ? Hc Hs]; subst. cbn [rstrip]. rewrite (IH Hs).
  destruct s; [|done]. unfold not_space in Hc.
  by destruct (is_space c).
Qed.

Lemma span_all p w : all_chars p w → span p w = (w, EmptyString).
Proof.
  induction w as [|c w IH]; intros H; [reflexivity|].
  inversion H as [|? ? Hc Hw]; subst. cbn [span]. by rewrite Hc, (IH Hw).
Qed.

Lemma re_search_count_cons key c s :
  re_search_count key (String c s)
  = match match_count key (String c s) with
    | Some n => Some n
    | None => re_search_count key s
    end.
Proof. reflexivity. Qed.

Lemma re_search_count_skip q : ∀ s,
  all_chars not_y q →
  re_search_count "yellows:" (q +:+ s) = re_search_count "yellows:" s.
Proof.
  induction q as [|a q IH]; intros s H; [reflexivity|].
  inversion H as [|? ? Ha Hq]; subst.
  rewrite string_app_cons, re_search_count_cons.
  assert (match_count "yellows:" (String a (q +:+ s)) = None) as ->.
  { unfold match_count.
    destruct (String.prefix "yellows:" (String a (q +:+ s))) eqn:E; [|done].
    apply prefix_spec in E as [t Ht].
    change ("yellows:" +:+ t) with (String "y" ("ellows:" +:+ t)) in Ht.
    injection Ht as -> _. discriminate. }
  by apply IH.
Qed.

(** The count that follows a key: after the key and a space, a run of
    digits that ends the text or is followed by another character. *)
Lemma match_count_digits key c d rest :
  all_chars is_digit (String c d) →
  match rest with String x _ => is_digit x = false | EmptyString => True end →
  match_count key (key +:+ " " +:+ String c d +:+ rest)
  = Some (int_of_digits (String c d)).
Proof.
  intros Hd Hrest. unfold match_count.
  assert (String.prefix key (key +:+ " " +:+ String c d +:+ rest) = true)
    as -> by (apply prefix_spec; by eexists).
  rewrite drop_string_app.
  change (" " +:+ String c d +:+ rest)
    with (String " " (String c (d +:+ rest))).
  inversion Hd as [|? ? Hc Hd']; subst.
  assert (is_space c = false) as Hsp.
  { pose proof (is_digit_not_space c Hc) as H. unfold not_space in H.
    by destruct (is_space c). }
  cbn [span]. change (is_space " ") with true. cbn iota. rewrite Hsp.
  cbn [snd].
  change (String c (d +:+ rest)) with (String c d +:+ rest).
  destruct rest as [|x rest].
  - rewrite string_app_nil_r, (span_all is_digit (String c d) Hd). reflexivity.
  - by rewrite (span_app is_digit (String c d) x rest Hd Hrest).
Qed.

Lemma lstrip_head c s : is_space c = false → lstrip (String c s) = String c s.
Proof. intros H. cbn [lstrip]. by rewrite H. Qed.

Lemma fe_free_newline rest : fe_free rest = true → fe_free (nl +:+ rest) = true.
Proof.
  intros H. change (nl +:+ rest) with (String newline rest).
  destruct rest as [|b rest]; [reflexivity|]. rewrite fe_free_cons, H.
  reflexivity.
Qed.

(** The digits of a count, followed by what closes the message. *)
Lemma count_then_closing c d tail :
  all_chars is_digit (String c d) → closes tail →
  rstrip (String c d +:+ tail) = String c d +:+ tail ∧
  fe_free (String c d +:+ tail) = true ∧
  match tail with String x _ => is_digit x = false | EmptyString => True end.
Proof.
  intros Hd [->|(rest & -> & Hfree & Hstrip & Hne)].
  - rewrite string_app_nil_r. split; [|split; [|done]].
    + apply rstrip_not_space.
      by apply (all_chars_impl is_digit); [apply is_digit_not_space|].
    + apply not_e_fe_free.
      by apply (all_chars_impl is_digit); [apply is_digit_not_e|].
  - split; [|split; [|reflexivity]].
    + rewrite <- string_app_assoc. by apply rstrip_keep.
    + apply fe_free_app; [| by apply fe_free_newline | by intros [=]].
      apply not_e_fe_free.
      by apply (all_chars_impl is_digit); [apply is_digit_not_e|].
Qed.

Lemma feedback_counts_read (P : Parser) completion m word greens yellows tail :
  getitem_last (get_user_messages completion) = Some m →
  content m = Some (feedback_text word greens yellows +:+ tail) →
  0 ≤ greens → 0 ≤ yellows → closes tail →
  partial_credit_reward_func completion
  = Some (partial_credit greens yellows).
Proof.
  intros Hm Hc Hg Hy Htail.
  destruct (str_of_Z_digits greens Hg) as (cg & dg & Eg & Hdg & Hig).
  destruct (str_of_Z_digits yellows Hy) as (cy & dy & Ey & Hdy & Hiy).
  destruct (count_then_closing cy dy tail Hdy Htail) as (Hstrip & Hfree & Hnd).
  set (E := String cy dy +:+ tail) in *.
  set (G := String cg dg) in *.
  set (p0 := "You submitted [" +:+ upper word +:+ "]." +:+ nl).
  set (r' := "greens:" +:+ " " +:+ G +:+ ", yellows: " +:+ E).
  assert (HE : E ≠ EmptyString) by done.
  assert (Hnot_e_G : all_chars not_e G)
    by (by apply (all_chars_impl is_digit); [apply is_digit_not_e|]).
  assert (Htext : feedback_text word greens yellows +:+ tail
                  = p0 +:+ "Feedback:" +:+ String " " r').
  { unfold feedback_text, p0, r', E. rewrite Eg, Ey.
    rewrite !string_app_assoc. reflexivity. }
  assert (Hr' : rstrip r' = r').
  { unfold r'. rewrite <- !string_app_assoc. by apply rstrip_keep. }
  assert (Hfr' : fe_free (String " " r') = true).
  { change (String " " r')
      with (" greens: " +:+ G +:+ ", yellows: " +:+ E).
    apply fe_free_pieces; [reflexivity|done| |done].
    apply fe_free_app; [reflexivity|done|].
    unfold E. rewrite string_app_cons. simpl. intros ->.
    inversion Hdy as [|? ? Hcy _]. discriminate. }
  assert (Hfp0 : fe_free p0 = true).
  { unfold p0. apply fe_free_pieces;
      [reflexivity|apply upper_not_e|reflexivity|done]. }
  unfold partial_credit_reward_func.
  rewrite Hm. cbn [mbind option_bind]. rewrite Hc. cbn [mbind option_bind].
  rewrite Htext.
  assert (Hs1 : strip (p0 +:+ "Feedback:" +:+ String " " r')
                = p0 +:+ "Feedback:" +:+ String " " r').
  { assert (Hp0 : p0 = String "Y" ("ou submitted [" +:+ upper word
                                   +:+ "]." +:+ nl)) by reflexivity.
    unfold strip. rewrite Hp0 at 1.
    rewrite string_app_cons, lstrip_head by reflexivity.
    rewrite <- string_app_cons, <- Hp0.
    replace (p0 +:+ "Feedback:" +:+ String " " r')
      with ((p0 +:+ "Feedback:" +:+ " ") +:+ r')
      by (rewrite !string_app_assoc; reflexivity).
    apply rstrip_keep; [done|]. unfold r'. discriminate. }
  rewrite Hs1.
  assert (contains "Feedback:" (p0 +:+ "Feedback:" +:+ String " " r') = true)
    as -> by (apply contains_spec; by exists p0, (String " " r')).
  rewrite (split_last_marker p0 (String " " r') Hfp0 Hfr').
  assert (Hs2 : strip (String " " r') = r').
  { unfold strip. cbn [lstrip]. change (is_space " ") with true. cbn iota.
    unfold r' at 1.
    change ("greens:" +:+ " " +:+ G +:+ ", yellows: " +:+ E)
      with (String "g" ("reens:" +:+ " " +:+ G +:+ ", yellows: " +:+ E)).
    rewrite lstrip_head by reflexivity. exact Hr'. }
  rewrite Hs2.
  assert (Hgreen : re_search_count "greens:" r' = Some greens).
  { unfold r'.
    change ("greens:" +:+ " " +:+ G +:+ ", yellows: " +:+ E)
      with (String "g" ("reens:" +:+ " " +:+ G +:+ ", yellows: " +:+ E)).
    rewrite re_search_count_cons.
    change (String "g" ("reens:" +:+ " " +:+ G +:+ ", yellows: " +:+ E))
      with ("greens:" +:+ " " +:+ String cg dg +:+ ", yellows: " +:+ E).
    rewrite (match_count_digits "greens:" cg dg (", yellows: " +:+ E) Hdg)
      by reflexivity.
    f_equal. exact Hig. }
  assert (Hyellow : re_search_count "yellows:" r' = Some yellows).
  { unfold r'.
    replace ("greens:" +:+ " " +:+ G +:+ ", yellows: " +:+ E)
      with (("greens: " +:+ G +:+ ", ")
            +:+ "yellows:" +:+ " " +:+ String cy dy +:+ tail)
      by (unfold E; rewrite !string_app_assoc; reflexivity).
    rewrite re_search_count_skip.
    - change ("yellows:" +:+ " " +:+ String cy dy +:+ tail)
        with (String "y" ("ellows:" +:+ " " +:+ String cy dy +:+ tail)).
      rewrite re_search_count_cons.
      change (String "y" ("ellows:" +:+ " " +:+ String cy dy +:+ tail))
        with ("yellows:" +:+ " " +:+ String cy dy +:+ tail).
      rewrite (match_count_digits "yellows:" cy dy tail Hdy Hnd).
      f_equal. exact Hiy.
    - apply all_chars_app; [by repeat constructor|].
      apply all_chars_app; [|by repeat constructor].
      by apply (all_chars_impl is_digit); [apply is_digit_not_y|]. }
  by rewrite Hgreen, Hyellow.
Qed.

Lemma closes_nothing : closes "".
Proof. by left. Qed.

Lemma closes_win : closes (nl +:+ win_reason).
Proof.
  right. exists win_reason.
  split; [reflexivity|]. split; [reflexivity|]. split; [reflexivity|].
  discriminate.
Qed.

Lemma closes_lose secret : closes (nl +:+ lose_reason secret).
Proof.
  right. exists (lose_reason secret). split; [reflexivity|].
  unfold lose_reason. split; [|split].
  - apply fe_free_pieces; [reflexivity|apply upper_not_e|reflexivity|done].
  - rewrite <- string_app_assoc. by apply rstrip_keep.
  - discriminate.
Qed.

(** X13: the partial-credit reward reads back the counts the engine wrote:
    on a transcript whose last environment message is the feedback text of
    a turn, alone or followed by the congratulation or by the game-over
    text, the reward is 0.2 * greens + 0.1 * yellows for the counts in the
    text. *)
Theorem partial_credit_reward_func_reads_feedback (P : Parser)
  (completion : list message) (m : message) (word secret : string)
  (greens yellows : Z) :
  getitem_last (get_user_messages completion) = Some m →
  0 ≤ greens → 0 ≤ yellows →
  content m = Some (feedback_text word greens yellows) ∨
  content m = Some (feedback_text word greens yellows +:+ nl +:+ win_reason) ∨
  content m = Some (feedback_text word greens yellows +:+ nl
                    +:+ lose_reason secret) →
  partial_credit_reward_func completion
  = Some (partial_credit greens yellows).
Proof.
  intros Hm Hg Hy [Hc|[Hc|Hc]].
  - apply (feedback_counts_read P completion m word greens yellows "");
      [done| |done|done|apply closes_nothing].
    by rewrite string_app_nil_r.
  - by apply (feedback_counts_read P completion m word greens yellows
                (nl +:+ win_reason)); [| | | |apply closes_win].
  - by apply (feedback_counts_read P completion m word greens yellows
                (nl +:+ lose_reason secret)); [| | | |apply closes_lose].
Qed.

Lemma partial_credit_reward_func_reads_feedback_witness :
  @partial_credit_reward_func XMLParser
    (ends_with_user (feedback_text "crane" 2 0 +:+ nl +:+ lose_reason "plant"))
  = Some (partial_credit 2 0).
Proof.
  apply (partial_credit_reward_func_reads_feedback XMLParser _
           {| role := "user";
              content := Some (feedback_text "crane" 2 0 +:+ nl
                               +:+ lose_reason "plant") |}
           "crane" "plant" 2 0); [reflexivity|lia|lia|].
  right. right. reflexivity.
Defined.

(** X14: the reward of a turn that continues the game is the reward the
    partial-credit function computes from the message of that turn. *)
Theorem step_continue_reward_read_back (P : Parser) (st : State)
  (action w : string) (is_done : bool) (info : Info) (st' : State)
  (completion : list message) (m : message) :
  re_search_bracket action = Some w →
  Z.of_nat (len w) = word_length (game_state st) →
  lower w ≠ lower (secret_word (game_state st)) →
  Z.of_nat (length (guess_history (game_state st))) + 1
    < num_guesses (game_state st) →
  step action st = Some (is_done, info, st') →
  getitem_last (get_user_messages completion) = Some m →
  content m = latest_observation info →
  partial_credit_reward_func completion = reward info.
Proof.
  intros Hs Hl Hw Hlt Hstep Hm Hc.
  destruct (step_continue st action w Hs Hl Hw Hlt)
    as (g & y & info0 & st0 & Hcalc & Hstep0 & Hr & Hobs & _).
  rewrite Hstep in Hstep0. injection Hstep0 as -> -> ->.
  destruct (calculate_hurdle_feedback_range _ _ _ _ Hcalc) as (Hg & Hy & _).
  rewrite Hr. rewrite Hobs in Hc.
  apply (feedback_counts_read P completion m (lower w) g y "");
    [done| |done|done|apply closes_nothing].
  by rewrite string_app_nil_r.
Qed.

Lemma step_continue_reward_read_back_witness :
  @partial_credit_reward_func XMLParser
    (ends_with_user (feedback_text "crane" 2 0))
  = reward (set_reward (partial_credit 2 0)
              (set_latest_observation (feedback_text "crane" 2 0) empty_info)).
Proof.
  apply (step_continue_reward_read_back XMLParser (reset "plant" 5 8)
           "[crane]" "crane" false _
           (state_after ["[crane]"] (reset "plant" 5 8)) _
           {| role := "user"; content := Some (feedback_text "crane" 2 0) |});
    [reflexivity|reflexivity|discriminate|reflexivity| |reflexivity|reflexivity].
  vm_compute. reflexivity.
Defined.

(** X15: on a message of the engine the feedback function returns the
    counts without the marker: the text " greens: g, yellows: y", followed
    by what closes the message. *)
Theorem hurdle_wordle_feedback_fn_counts (word secret : string)
  (greens yellows : Z) (tail : string) :
  tail = EmptyString ∨ tail = nl +:+ win_reason ∨
  tail = nl +:+ lose_reason secret →
  hurdle_wordle_feedback_fn (feedback_text word greens yellows +:+ tail)
  = " greens: " +:+ str_of_Z greens +:+ ", yellows: " +:+ str_of_Z yellows
    +:+ tail.
Proof.
  intros Htail.
  assert (Hft : fe_free tail = true ∧ head_not_e tail).
  { destruct Htail as [ -> | [ -> | -> ] ]; [done|done|]. split; [|by intros [=]].
    apply fe_free_newline. unfold lose_reason.
    apply fe_free_pieces; [reflexivity|apply upper_not_e|reflexivity|done]. }
  destruct Hft as [Hft Hht].
  set (p0 := "You submitted [" +:+ upper word +:+ "]." +:+ nl).
  set (r := " greens: " +:+ str_of_Z greens +:+ ", yellows: "
            +:+ str_of_Z yellows +:+ tail).
  assert (Htext : feedback_text word greens yellows +:+ tail
                  = p0 +:+ "Feedback:" +:+ r).
  { unfold feedback_text, p0, r. rewrite !string_app_assoc. reflexivity. }
  assert (Hr : fe_free r = true).
  { unfold r. apply fe_free_pieces;
      [reflexivity|apply str_of_Z_not_e| |done].
    apply fe_free_pieces; [reflexivity|apply str_of_Z_not_e|done|done]. }
  assert (Hp0 : fe_free p0 = true).
  { unfold p0. apply fe_free_pieces;
      [reflexivity|apply upper_not_e|reflexivity|done]. }
  unfold hurdle_wordle_feedback_fn. rewrite Htext.
  assert (contains "Feedback:" (p0 +:+ "Feedback:" +:+ r) = true) as ->
    by (apply contains_spec; by exists p0, r).
  by apply split_last_marker.
Qed.

Lemma hurdle_wordle_feedback_fn_counts_witness :
  hurdle_wordle_feedback_fn (feedback_text "crane" 2 0 +:+ "")
  = " greens: " +:+ str_of_Z 2 +:+ ", yellows: " +:+ str_of_Z 0 +:+ "".
Proof.
  apply (hurdle_wordle_feedback_fn_counts "crane" "plant" 2 0 "").
  by left.
Defined.

(** ** The efficiency reward and the prompt *)

Lemma count_turns_reward_func_value (P : Parser) completion answer :
  count_turns_reward_func completion answer
  = Some (check_answer_reward_func completion answer
          / inject_Z (Z.of_nat (length (guessing_turns completion)) + 1))%Q.
Proof.
  unfold count_turns_reward_func, guessing_turns.
  destruct (filter (λ x, role x = "assistant") completion) as [|m ms];
    [reflexivity|].
  assert (H0 : (0 <? Z.of_nat (length (m :: ms))) = true)
    by (apply Z.ltb_lt; simpl; lia).
  rewrite H0. cbn [getitem lookup list_lookup mbind option_bind].
  unfold py_div. destruct (contains welcome (content_or_empty m)).
  - replace (Z.of_nat (length (m :: ms)) - 1 + 1)
      with (Z.of_nat (length ms) + 1) by (simpl length; lia).
    by destruct (Z.eqb_spec (Z.of_nat (length ms) + 1) 0) as [|_]; [lia|].
  - by destruct (Z.eqb_spec (Z.of_nat (length (m :: ms)) + 1) 0) as [|_];
      [lia|].
Qed.

Lemma unit_fraction_range (k : Z) :
  1 ≤ k → (0 < 1 / inject_Z k)%Q ∧ (1 / inject_Z k <= 1)%Q.
Proof.
  intros Hk. destruct k as [|p|p]; try lia.
  unfold Qdiv, Qinv, Qlt, Qle, Qmult, inject_Z. simpl. lia.
Qed.

(** X16: the efficiency reward is defined on every transcript, lies
    between 0 and the correctness reward, which is 0 or 1, and is positive
    exactly when the correctness reward is 1. *)
Theorem count_turns_reward_func_range (P : Parser)
  (completion : list message) (answer : string) :
  ∃ r,
    count_turns_reward_func completion answer = Some r ∧
    (0 <= r)%Q ∧ (r <= check_answer_reward_func completion answer)%Q ∧
    (check_answer_reward_func completion answer <= 1)%Q ∧
    ((0 < r)%Q ↔ check_answer_reward_func completion answer = 1%Q).
Proof.
  eexists. split; [apply count_turns_reward_func_value|].
  set (k := Z.of_nat (length (guessing_turns completion)) + 1).
  assert (Hk : 1 ≤ k) by (unfold k; lia).
  destruct (unit_fraction_range k Hk) as [Hpos Hle].
  unfold check_answer_reward_func.
  destruct (parse_answer completion) as [g|].
  - destruct (String.eqb g _).
    + split; [by apply Qlt_le_weak|]. split; [done|].
      split; [apply Qle_refl|]. by split.
    + split; [by destruct k|]. split; [by destruct k|].
      split; [done|]. split; [|done].
      intros H. exfalso. by destruct k.
  - split; [by destruct k|]. split; [by destruct k|].
    split; [done|]. split; [|done].
    intros H. exfalso. by destruct k.
Qed.

(** X17: the prompt of the engine opens with the banner the efficiency
    reward looks for: an assistant turn that holds the prompt, placed
    first, is not counted as a guessing turn, whatever the word length and
    the number of guesses. *)
Theorem welcome_prompt_not_counted (P : Parser) (game_state : GameState)
  (rest : list message) (answer : string) :
  contains welcome (_generate_player_prompt game_state) = true ∧
  guessing_turns
    ({| role := "assistant";
        content := Some (_generate_player_prompt game_state) |} :: rest)
  = filter (λ x, role x = "assistant") rest ∧
  count_turns_reward_func
    ({| role := "assistant";
        content := Some (_generate_player_prompt game_state) |} :: rest)
    answer
  = Some (check_answer_reward_func
            ({| role := "assistant";
                content := Some (_generate_player_prompt game_state) |}
             :: rest) answer
          / inject_Z (Z.of_nat (length (filter (λ x, role x = "assistant")
                                          rest)) + 1))%Q.
Proof.
  assert (Hw : contains welcome (_generate_player_prompt game_state) = true).
  { apply contains_spec. exists "". eexists. rewrite string_app_nil_l.
    reflexivity. }
  assert (Hg : guessing_turns
                 ({| role := "assistant";
                     content := Some (_generate_player_prompt game_state) |}
                  :: rest)
               = filter (λ x, role x = "assistant") rest).
  { unfold guessing_turns. rewrite filter_cons_True by reflexivity.
    cbn [content_or_empty content]. by rewrite Hw. }
  split; [done|]. split; [done|].
  by rewrite count_turns_reward_func_value, Hg.
Qed.
